(** * Time-reversal contraction kernels of [rha_direct_dot.c]

    A shallow embedding of the relativistic "hermitian e1 / anti-hermitian
    e2" J/K contraction kernels ([CVHFrha1_*], [CVHFrha2ij_*],
    [CVHFrha2kl_*], [CVHFrha4_*]) and of the static helper [adbak_blockT].

    Conventions of the embedding
    - a C [int] is a [Z]; signed overflow is undefined behaviour in C and is
      not modelled;
    - a [double complex *] is a total map from element index to scalar, seen
      from the pointer: [p + k] is the map shifted by [k] ([offset]); what C
      leaves undefined for accesses outside the allocated object is not
      modelled;
    - the scalar type and its arithmetic are an interface ([Scalar]); no
      algebraic law is assumed of it, floating-point sums and products
      having few;
    - [assert] is active (NDEBUG undefined): a failed assertion aborts, which
      is the result [AssertFail];
    - the kernels of [r_direct_dot.c] and the reductions of [time_rev.c] are
      used through their headers only; they are interfaces ([RsKernels],
      [TimeRev]) and every theorem holds for all their implementations. *)

From Stdlib Require Import ZArith Lia Bool List.
Import ListNotations.
Local Open Scope Z_scope.

(** ** Scalars and buffers *)

(** [double complex] with the operations the kernels and [zgemv_] use.
    [Czero], [Cone], [Cmone] are the constants [Z0 = 0], [Z1 = 1],
    [Z_1 = -1] of the source; [indet] is the content of an automatic array
    before its first write. *)
Class Scalar (C : Type) := {
  Cadd : C -> C -> C;
  Cmul : C -> C -> C;
  Czero : C;
  Cone : C;
  Cmone : C;
  indet : Z -> C
}.

Definition buf (C : Type) := Z -> C.
Definition ibuf := Z -> Z.

(** Pointer arithmetic [p + k]. *)
Definition offset {C} (p : buf C) (k : Z) : buf C := fun i => p (k + i).

(** [p[i] = v]. *)
Definition store {C} (p : buf C) (i : Z) (v : C) : buf C :=
  fun q => if q =? i then v else p q.

(** Run [f] on the memory seen from [p + k] and read the result back from
    [p]. *)
Definition at_offset {C} (k : Z) (f : buf C -> buf C) (p : buf C) : buf C :=
  fun q => f (offset p k) (q - k).

(** ** Counted loops *)

(** [for (i = lo; i < hi; i++) s = body i s]. *)
Fixpoint for_loop {St : Type} (n : nat) (i : Z) (body : Z -> St -> St)
    (s : St) : St :=
  match n with
  | O => s
  | S n' => for_loop n' (i + 1) body (body i s)
  end.

Definition for_range {St : Type} (lo hi : Z) (body : Z -> St -> St)
    (s : St) : St :=
  for_loop (Z.to_nat (hi - lo)) lo body s.

(** ** Results of a kernel call *)

Inductive outcome (A : Type) : Type :=
| Done (v : A)
| AssertFail.
Arguments Done {A} v.
Arguments AssertFail {A}.

(** [assert(b); k] *)
Definition assert {A} (b : bool) (k : outcome A) : outcome A :=
  if b then k else AssertFail.

Inductive trans : Type := TRANSN | TRANST.

Section Primitives.
Context {C : Type} `{Scalar C}.

(** [NPzset0(p, n)] of np_helper.h: the first [n] elements become zero. *)
Definition NPzset0 (p : buf C) (n : Z) : buf C :=
  fun i => if (0 <=? i) && (i <? n) then Czero else p i.

(** [adbak_blockT]: the pointer [a] is advanced to row [istart] and then by
    [n] after each row; the loop state is the memory together with the
    current position of [a]. *)
Definition adbak_blockT (a blk : buf C) (n istart iend jstart jend : Z) : buf C :=
  let m := iend - istart in
  fst (for_range istart iend
         (fun i (st : buf C * Z) =>
            let '(mem, ap) := st in
            let i1 := i - istart in
            let mem' :=
              for_range jstart jend
                (fun j mem =>
                   let j1 := j - jstart in
                   store mem (ap + j) (Cadd (mem (ap + j)) (blk (j1 * m + i1))))
                mem in
            (mem', ap + n))
         (a, istart * n)).

(** [zgemv_] of BLAS with unit strides ([INC1]), as every call here uses
    it: [y := alpha*op(A)*x + beta*y] for a column-major [m]-by-[n] matrix
    with leading dimension [lda]; dot products are summed by ascending
    index. *)
Definition zsum (n : Z) (f : Z -> C) : C :=
  for_range 0 n (fun k acc => Cadd acc (f k)) Czero.

Definition zgemv_ (t : trans) (m n : Z) (alpha : C) (a : buf C) (lda : Z)
    (x : buf C) (beta : C) (y : buf C) : buf C :=
  match t with
  | TRANSN =>
      fun i => if (0 <=? i) && (i <? m)
               then Cadd (Cmul beta (y i))
                         (Cmul alpha (zsum n (fun j => Cmul (a (i + j * lda)) (x j))))
               else y i
  | TRANST =>
      fun j => if (0 <=? j) && (j <? n)
               then Cadd (Cmul beta (y j))
                         (Cmul alpha (zsum m (fun i => Cmul (a (i + j * lda)) (x i))))
               else y j
  end.

End Primitives.

(** ** The shell quadruplet: macro [LOCIJKL] *)

Record locijkl : Type := {
  ish : Z; jsh : Z; ksh : Z; lsh : Z;
  istart : Z; jstart : Z; kstart : Z; lstart : Z;
  iend : Z; jend : Z; kend : Z; lend : Z;
  di : Z; dj : Z; dk : Z; dl : Z
}.

Definition LOCIJKL (shls ao_loc : ibuf) : locijkl :=
  let ish := shls 0 in
  let jsh := shls 1 in
  let ksh := shls 2 in
  let lsh := shls 3 in
  let istart := ao_loc ish in
  let jstart := ao_loc jsh in
  let kstart := ao_loc ksh in
  let lstart := ao_loc lsh in
  let iend := ao_loc (ish + 1) in
  let jend := ao_loc (jsh + 1) in
  let kend := ao_loc (ksh + 1) in
  let lend := ao_loc (lsh + 1) in
  {| ish := ish; jsh := jsh; ksh := ksh; lsh := lsh;
     istart := istart; jstart := jstart; kstart := kstart; lstart := lstart;
     iend := iend; jend := jend; kend := kend; lend := lend;
     di := iend - istart; dj := jend - jstart;
     dk := kend - kstart; dl := lend - lstart |}.

(** ** Interfaces of the included headers *)

(** The common signature
    [(eri, dm, vjk, nao, ncomp, shls, ao_loc, tao, dm_cond, nbas, dm_atleast)];
    the result is the output array [vjk] after the call.  [real] is C's
    [double]. *)
Definition kernel (C real : Type) : Type :=
  buf C -> buf C -> buf C -> Z -> Z -> ibuf -> ibuf -> ibuf ->
  (Z -> real) -> Z -> real -> buf C.

(** r_direct_dot.h: the kernels without time-reversal bookkeeping.  They
    write through [vjk] only. *)
Class RsKernels (C real : Type) := {
  CVHFrs1_ji_s1kl : kernel C real;
  CVHFrs1_lk_s1ij : kernel C real;
  CVHFrs1_jk_s1il : kernel C real;
  CVHFrs1_li_s1kj : kernel C real;
  CVHFrs2ij_ji_s1kl : kernel C real;
  CVHFrs2ij_lk_s2ij : kernel C real;
  CVHFrs2ij_jk_s1il : kernel C real;
  CVHFrs2ij_li_s1kj : kernel C real
}.

(** time_rev.h.  A reduction is called as
    [(block, mat, tao, istart, iend, jstart, jend, nao)] and fills [block]
    from [mat]: here it maps the remaining arguments to the block it
    writes.  A back-distribution
    [(block, mat, tao, istart, iend, jstart, jend, nao)] updates [mat]; the
    result is [mat] after the call. *)
Definition timerev (C : Type) : Type :=
  buf C -> ibuf -> Z -> Z -> Z -> Z -> Z -> buf C.
Definition timerev_adbak (C : Type) : Type :=
  buf C -> buf C -> ibuf -> Z -> Z -> Z -> Z -> Z -> buf C.

Class TimeRev (C : Type) := {
  CVHFtimerev_ijminus : timerev C;
  CVHFtimerev_i : timerev C;
  CVHFtimerev_j : timerev C;
  CVHFtimerev_iT : timerev C;
  CVHFtimerev_jT : timerev C;
  CVHFtimerev_block : timerev C;
  CVHFtimerev_blockT : timerev C;
  CVHFtimerev_adbak_i : timerev_adbak C;
  CVHFtimerev_adbak_j : timerev_adbak C;
  CVHFtimerev_adbak_iT : timerev_adbak C;
  CVHFtimerev_adbak_jT : timerev_adbak C;
  CVHFtimerev_adbak_block : timerev_adbak C;
  CVHFtimerev_adbak_blockT : timerev_adbak C
}.

(** ** The kernels of rha_direct_dot.c *)

(** What may abort on an assertion. *)
Definition kernel_a (C real : Type) : Type :=
  buf C -> buf C -> buf C -> Z -> Z -> ibuf -> ibuf -> ibuf ->
  (Z -> real) -> Z -> real -> outcome (buf C).

(** The mutable locals of a loop over the components: the output array
    (seen from the pointer the kernel was called with), the pointers
    [eri], [p0213] and [vj]/[vk] as displacements from [eri] and from the
    output pointer, and the scratch vector [svj]/[svk]. *)
Record locals (C : Type) : Type := {
  mem : buf C;
  eri_p : Z;
  p0213_p : Z;
  vjk_p : Z;
  tmp : buf C
}.
Arguments mem {C} _.
Arguments eri_p {C} _.
Arguments p0213_p {C} _.
Arguments vjk_p {C} _.
Arguments tmp {C} _.

Section Kernels.
Context {C real : Type} `{Scalar C} `{RsKernels C real} `{TimeRev C}.

Definition CVHFrha1_ji_s1kl : kernel C real :=
  fun eri dm vj nao ncomp shls ao_loc tao dm_cond nbas dm_atleast =>
    CVHFrs1_ji_s1kl eri dm vj nao ncomp shls ao_loc tao dm_cond nbas dm_atleast.

Definition CVHFrha1_lk_s1ij : kernel C real :=
  fun eri dm vj nao ncomp shls ao_loc tao dm_cond nbas dm_atleast =>
    CVHFrs1_lk_s1ij eri dm vj nao ncomp shls ao_loc tao dm_cond nbas dm_atleast.

Definition CVHFrha1_jk_s1il : kernel C real :=
  fun eri dm vk nao ncomp shls ao_loc tao dm_cond nbas dm_atleast =>
    CVHFrs1_jk_s1il eri dm vk nao ncomp shls ao_loc tao dm_cond nbas dm_atleast.

Definition CVHFrha1_li_s1kj : kernel C real :=
  fun eri dm vk nao ncomp shls ao_loc tao dm_cond nbas dm_atleast =>
    CVHFrs1_li_s1kj eri dm vk nao ncomp shls ao_loc tao dm_cond nbas dm_atleast.

Definition CVHFrha2ij_ji_s1kl : kernel C real :=
  fun eri dm vj nao ncomp shls ao_loc tao dm_cond nbas dm_atleast =>
    CVHFrs2ij_ji_s1kl eri dm vj nao ncomp shls ao_loc tao dm_cond nbas dm_atleast.

Definition CVHFrha2ij_lk_s2ij : kernel C real :=
  fun eri dm vj nao ncomp shls ao_loc tao dm_cond nbas dm_atleast =>
    CVHFrs2ij_lk_s2ij eri dm vj nao ncomp shls ao_loc tao dm_cond nbas dm_atleast.

Definition CVHFrha2ij_jk_s1il : kernel C real :=
  fun eri dm vk nao ncomp shls ao_loc tao dm_cond nbas dm_atleast =>
    CVHFrs2ij_jk_s1il eri dm vk nao ncomp shls ao_loc tao dm_cond nbas dm_atleast.

Definition CVHFrha2ij_li_s1kj : kernel C real :=
  fun eri dm vk nao ncomp shls ao_loc tao dm_cond nbas dm_atleast =>
    CVHFrs2ij_li_s1kj eri dm vk nao ncomp shls ao_loc tao dm_cond nbas dm_atleast.

Definition CVHFrha2kl_ji_s2kl : kernel_a C real :=
  fun eri dm vj nao ncomp shls ao_loc tao dm_cond nbas dm_atleast =>
    assert (shls 2 >=? shls 3)
      (Done (CVHFrs1_ji_s1kl eri dm vj nao ncomp shls ao_loc tao
               dm_cond nbas dm_atleast)).

(** One pass of the loop of [CVHFrha2kl_lk_s1ij] over [ic]. *)
Definition lk_s1ij_step (eri sdm : buf C) (nao : Z) (L : locijkl)
    (ic : Z) (st : locals C) : locals C :=
  let dij := di L * dj L in
  let dkl := dk L * dl L in
  let svj := NPzset0 (tmp st) dij in
  let svj := zgemv_ TRANSN dij dkl Cone (offset eri (eri_p st)) dij
                    sdm Czero svj in
  let vj := at_offset (vjk_p st)
              (fun a => adbak_blockT a svj nao (istart L) (iend L)
                                     (jstart L) (jend L))
              (mem st) in
  {| mem := vj; eri_p := eri_p st + dij * dkl; p0213_p := p0213_p st;
     vjk_p := vjk_p st + nao * nao; tmp := svj |}.

Definition CVHFrha2kl_lk_s1ij : kernel_a C real :=
  fun eri dm vj nao ncomp shls ao_loc tao dm_cond nbas dm_atleast =>
    assert (shls 2 >=? shls 3)
      (if shls 2 =? shls 3 then
         Done (CVHFrs1_lk_s1ij eri dm vj nao ncomp shls ao_loc tao
                 dm_cond nbas dm_atleast)
       else
         let L := LOCIJKL shls ao_loc in
         let sdm := CVHFtimerev_ijminus dm tao (lstart L) (lend L)
                                        (kstart L) (kend L) nao in
         Done (mem (for_range 0 ncomp (lk_s1ij_step eri sdm nao L)
                      {| mem := vj; eri_p := 0; p0213_p := 0; vjk_p := 0;
                         tmp := indet |}))).

(** One pass of the loop of [CVHFrha2kl_jk_s1il] over [ic]. *)
Definition jk_s1il_step (eri sdm : buf C) (tao : ibuf) (nao : Z)
    (L : locijkl) (ic : Z) (st : locals C) : locals C :=
  let dik := di L * dk L in
  let djl := dj L * dl L in
  let svk := NPzset0 (tmp st) dik in
  let svk := zgemv_ TRANSN dik djl Cmone (offset eri (p0213_p st)) dik
                    sdm Cone svk in
  let vk := at_offset (vjk_p st)
              (fun a => CVHFtimerev_adbak_jT svk a tao (istart L) (iend L)
                                             (kstart L) (kend L) nao)
              (mem st) in
  {| mem := vk; eri_p := eri_p st + dik * djl;
     p0213_p := p0213_p st + dik * djl;
     vjk_p := vjk_p st + nao * nao; tmp := svk |}.

Definition CVHFrha2kl_jk_s1il : kernel_a C real :=
  fun eri dm vk nao ncomp shls ao_loc tao dm_cond nbas dm_atleast =>
    assert (shls 2 >=? shls 3)
      (let vk := CVHFrs1_jk_s1il eri dm vk nao ncomp shls ao_loc tao
                   dm_cond nbas dm_atleast in
       if shls 2 =? shls 3 then Done vk
       else
         let L := LOCIJKL shls ao_loc in
         let dik := di L * dk L in
         let djl := dj L * dl L in
         let sdm := CVHFtimerev_jT dm tao (jstart L) (jend L)
                                   (lstart L) (lend L) nao in
         Done (mem (for_range 0 ncomp (jk_s1il_step eri sdm tao nao L)
                      {| mem := vk; eri_p := 0; p0213_p := dik * djl * ncomp;
                         vjk_p := 0; tmp := indet |}))).

(** One pass of the loop of [CVHFrha2kl_li_s1kj] over [ic]. *)
Definition li_s1kj_step (eri sdm : buf C) (tao : ibuf) (nao : Z)
    (L : locijkl) (ic : Z) (st : locals C) : locals C :=
  let dik := di L * dk L in
  let djl := dj L * dl L in
  let svk := NPzset0 (tmp st) (dl L * dj L) in
  let svk := zgemv_ TRANST dik djl Cmone (offset eri (p0213_p st)) dik
                    sdm Cone svk in
  let vk := at_offset (vjk_p st)
              (fun a => CVHFtimerev_adbak_i svk a tao (lstart L) (lend L)
                                            (jstart L) (jend L) nao)
              (mem st) in
  {| mem := vk; eri_p := eri_p st + dik * djl;
     p0213_p := p0213_p st + dik * djl;
     vjk_p := vjk_p st + nao * nao; tmp := svk |}.

Definition CVHFrha2kl_li_s1kj : kernel_a C real :=
  fun eri dm vk nao ncomp shls ao_loc tao dm_cond nbas dm_atleast =>
    assert (shls 2 >=? shls 3)
      (let vk := CVHFrs1_li_s1kj eri dm vk nao ncomp shls ao_loc tao
                   dm_cond nbas dm_atleast in
       if shls 2 =? shls 3 then Done vk
       else
         let L := LOCIJKL shls ao_loc in
         let dik := di L * dk L in
         let djl := dj L * dl L in
         let sdm := CVHFtimerev_i dm tao (kstart L) (kend L)
                                  (istart L) (iend L) nao in
         Done (mem (for_range 0 ncomp (li_s1kj_step eri sdm tao nao L)
                      {| mem := vk; eri_p := 0; p0213_p := dik * djl * ncomp;
                         vjk_p := 0; tmp := indet |}))).

Definition CVHFrha4_ji_s2kl : kernel_a C real :=
  fun eri dm vj nao ncomp shls ao_loc tao dm_cond nbas dm_atleast =>
    assert (shls 0 >=? shls 1)
      (assert (shls 2 >=? shls 3)
         (Done (CVHFrs2ij_ji_s1kl eri dm vj nao ncomp shls ao_loc tao
                  dm_cond nbas dm_atleast))).

Definition CVHFrha4_lk_s2ij : kernel_a C real :=
  fun eri dm vj nao ncomp shls ao_loc tao dm_cond nbas dm_atleast =>
    assert (shls 0 >=? shls 1)
      (assert (shls 2 >=? shls 3)
         (CVHFrha2kl_lk_s1ij eri dm vj nao ncomp shls ao_loc tao
            dm_cond nbas dm_atleast)).

(** A callee that aborts takes the caller with it. *)
Definition and_then {A B} (r : outcome A) (k : A -> outcome B) : outcome B :=
  match r with
  | Done v => k v
  | AssertFail => AssertFail
  end.

(** First loop of [CVHFrha4_jk_s1il] ("tjtikl"); [eri_p] is [peri],
    [vjk_p] is [pvk]. *)
Definition rha4_jk_step1 (eri sdm : buf C) (tao : ibuf) (nao : Z)
    (L : locijkl) (ic : Z) (st : locals C) : locals C :=
  let dik := di L * dk L in
  let djl := dj L * dl L in
  let svk := NPzset0 (tmp st) djl in
  let svk := zgemv_ TRANST dik djl Cone (offset eri (p0213_p st)) dik
                    sdm Cone svk in
  let vk := at_offset (vjk_p st)
              (fun a => CVHFtimerev_adbak_iT svk a tao (jstart L) (jend L)
                                             (lstart L) (lend L) nao)
              (mem st) in
  {| mem := vk; eri_p := eri_p st + dik * djl;
     p0213_p := p0213_p st + dik * djl;
     vjk_p := vjk_p st + nao * nao; tmp := svk |}.

(** Second loop of [CVHFrha4_jk_s1il] ("tjtitltk"): the inner loop over
    [l] advances [eri] by [dijk] and accumulates into [svk]. *)
Definition rha4_jk_step2 (eri sdm : buf C) (tao : ibuf) (nao : Z)
    (L : locijkl) (ic : Z) (st : locals C) : locals C :=
  let djk := dj L * dk L in
  let dijk := di L * dk L * dj L in
  let svk := NPzset0 (tmp st) djk in
  let inner :=
    for_range 0 (dl L)
      (fun l (se : buf C * Z) =>
         let '(svk, ep) := se in
         (zgemv_ TRANST (di L) djk Cmone (offset eri ep) (di L)
                 (offset sdm (l * di L)) Cone svk,
          ep + dijk))
      (svk, eri_p st) in
  let svk := fst inner in
  let vk := at_offset (vjk_p st)
              (fun a => CVHFtimerev_adbak_blockT svk a tao (jstart L) (jend L)
                                                 (kstart L) (kend L) nao)
              (mem st) in
  {| mem := vk; eri_p := snd inner; p0213_p := p0213_p st;
     vjk_p := vjk_p st + nao * nao; tmp := svk |}.

Definition CVHFrha4_jk_s1il : kernel_a C real :=
  fun eri dm vk nao ncomp shls ao_loc tao dm_cond nbas dm_atleast =>
    assert (shls 0 >=? shls 1)
      (assert (shls 2 >=? shls 3)
         (and_then
            (CVHFrha2kl_jk_s1il eri dm vk nao ncomp shls ao_loc tao
               dm_cond nbas dm_atleast)
            (fun vk =>
               if shls 0 =? shls 1 then Done vk
               else
                 let L := LOCIJKL shls ao_loc in
                 let dik := di L * dk L in
                 let djl := dj L * dl L in
                 let sdm := CVHFtimerev_iT dm tao (istart L) (iend L)
                                           (kstart L) (kend L) nao in
                 let st1 :=
                   for_range 0 ncomp (rha4_jk_step1 eri sdm tao nao L)
                     {| mem := vk; eri_p := 0; p0213_p := dik * djl * ncomp;
                        vjk_p := 0; tmp := indet |} in
                 if shls 2 =? shls 3 then Done (mem st1)
                 else
                   let sdm := CVHFtimerev_blockT dm tao (istart L) (iend L)
                                                 (lstart L) (lend L) nao in
                   let st2 :=
                     for_range 0 ncomp (rha4_jk_step2 eri sdm tao nao L)
                       {| mem := mem st1; eri_p := 0;
                          p0213_p := p0213_p st1; vjk_p := 0;
                          tmp := tmp st1 |} in
                   Done (mem st2)))).

(** First loop of [CVHFrha4_li_s1kj] ("tjtikl"). *)
Definition rha4_li_step1 (eri sdm : buf C) (tao : ibuf) (nao : Z)
    (L : locijkl) (ic : Z) (st : locals C) : locals C :=
  let dik := di L * dk L in
  let djl := dj L * dl L in
  let svk := NPzset0 (tmp st) dik in
  let svk := zgemv_ TRANSN dik djl Cone (offset eri (p0213_p st)) dik
                    sdm Cone svk in
  let vk := at_offset (vjk_p st)
              (fun a => CVHFtimerev_adbak_j svk a tao (kstart L) (kend L)
                                            (istart L) (iend L) nao)
              (mem st) in
  {| mem := vk; eri_p := eri_p st + dik * djl;
     p0213_p := p0213_p st + dik * djl;
     vjk_p := vjk_p st + nao * nao; tmp := svk |}.

(** Second loop of [CVHFrha4_li_s1kj] ("tjtitltk"): the inner loop over
    [l] writes the [l]-th stretch [svk + l*di]. *)
Definition rha4_li_step2 (eri sdm : buf C) (tao : ibuf) (nao : Z)
    (L : locijkl) (ic : Z) (st : locals C) : locals C :=
  let dil := di L * dl L in
  let djk := dj L * dk L in
  let dijk := di L * dk L * dj L in
  let svk := NPzset0 (tmp st) dil in
  let inner :=
    for_range 0 (dl L)
      (fun l (se : buf C * Z) =>
         let '(svk, ep) := se in
         (at_offset (l * di L)
            (fun y => zgemv_ TRANSN (di L) djk Cmone (offset eri ep) (di L)
                             sdm Cone y)
            svk,
          ep + dijk))
      (svk, eri_p st) in
  let svk := fst inner in
  let vk := at_offset (vjk_p st)
              (fun a => CVHFtimerev_adbak_block svk a tao (lstart L) (lend L)
                                                (istart L) (iend L) nao)
              (mem st) in
  {| mem := vk; eri_p := snd inner; p0213_p := p0213_p st;
     vjk_p := vjk_p st + nao * nao; tmp := svk |}.

Definition CVHFrha4_li_s1kj : kernel_a C real :=
  fun eri dm vk nao ncomp shls ao_loc tao dm_cond nbas dm_atleast =>
    assert (shls 0 >=? shls 1)
      (assert (shls 2 >=? shls 3)
         (and_then
            (CVHFrha2kl_li_s1kj eri dm vk nao ncomp shls ao_loc tao
               dm_cond nbas dm_atleast)
            (fun vk =>
               if shls 0 =? shls 1 then Done vk
               else
                 let L := LOCIJKL shls ao_loc in
                 let dik := di L * dk L in
                 let djl := dj L * dl L in
                 let sdm := CVHFtimerev_j dm tao (lstart L) (lend L)
                                          (jstart L) (jend L) nao in
                 let st1 :=
                   for_range 0 ncomp (rha4_li_step1 eri sdm tao nao L)
                     {| mem := vk; eri_p := 0; p0213_p := dik * djl * ncomp;
                        vjk_p := 0; tmp := indet |} in
                 if shls 2 =? shls 3 then Done (mem st1)
                 else
                   let sdm := CVHFtimerev_block dm tao (kstart L) (kend L)
                                                (jstart L) (jend L) nao in
                   let st2 :=
                     for_range 0 ncomp (rha4_li_step2 eri sdm tao nao L)
                       {| mem := mem st1; eri_p := 0;
                          p0213_p := p0213_p st1; vjk_p := 0;
                          tmp := tmp st1 |} in
                   Done (mem st2)))).

End Kernels.

(** ** Reference functions

    What the loops compute, written without loops; the theorems relate the
    kernels to them. *)

Section Reference.
Context {C : Type} `{Scalar C}.

(** [adbak_blockT] up to row [i]: an [n]-column matrix [a] whose entry at
    flat index [q], when it lies in rows [istart..i) and columns
    [jstart..jend), has received the transposed block entry. *)
Definition rows_added (a blk : buf C) (n m istart i jstart jend : Z) : buf C :=
  fun q =>
    let r := q / n in
    let c := q mod n in
    if (istart <=? r) && (r <? i) && (jstart <=? c) && (c <? jend)
    then Cadd (a q) (blk ((c - jstart) * m + (r - istart)))
    else a q.

(** The vector [svj] of component [ic] in [CVHFrha2kl_lk_s1ij]: one
    matrix-vector product of the [ic]-th [dij]-by-[dkl] integral block with
    the reduced density [sdm], into a zeroed vector. *)
Definition lk_svj (eri sdm : buf C) (L : locijkl) (ic : Z) : buf C :=
  let dij := di L * dj L in
  let dkl := dk L * dl L in
  zgemv_ TRANSN dij dkl Cone (offset eri (ic * (dij * dkl))) dij
         sdm Czero (fun _ => Czero).

(** The locals of [CVHFrha2kl_lk_s1ij] on entry to its loop. *)
Definition lk_init (vj : buf C) : locals C :=
  {| mem := vj; eri_p := 0; p0213_p := 0; vjk_p := 0; tmp := indet |}.

(** The locals of [CVHFrha2kl_jk_s1il] on entry to its loop; [p0213] is
    where the second, 0213-ordered copy of the integrals starts. *)
Definition jk_init (vk : buf C) (p0213 : Z) : locals C :=
  {| mem := vk; eri_p := 0; p0213_p := p0213; vjk_p := 0; tmp := indet |}.

(** The shell ranges of the quadruplet lie inside the [nao] orbitals, as
    they do for an offset table [ao_loc] that increases up to [nao]. *)
Definition ij_in_range (L : locijkl) (nao : Z) : Prop :=
  0 <= istart L /\ iend L <= nao /\ 0 <= jstart L /\ jend L <= nao.

Definition ik_in_range (L : locijkl) (nao : Z) : Prop :=
  0 <= istart L /\ iend L <= nao /\ 0 <= kstart L /\ kend L <= nao.

(** A back-distribution that stays inside the matrix it is given: on the
    [nao*nao] entries its result depends on the block entries
    [0..(iend-istart)*(jend-jstart)) and on those entries of the matrix
    only, and it leaves alone whatever lies beyond them. *)
Definition adbak_confined (f : timerev_adbak C) : Prop :=
  forall (blk blk' mat mat' : buf C) (tao : ibuf) (istart iend jstart jend nao : Z),
    0 <= istart -> iend <= nao -> 0 <= jstart -> jend <= nao ->
    (forall r, 0 <= r < (iend - istart) * (jend - jstart) -> blk r = blk' r) ->
    (forall p, 0 <= p < nao * nao -> mat p = mat' p) ->
    (forall p, 0 <= p < nao * nao ->
       f blk mat tao istart iend jstart jend nao p
       = f blk' mat' tao istart iend jstart jend nao p)
    /\
    (forall p, ~ 0 <= p < nao * nao ->
       f blk mat tao istart iend jstart jend nao p = mat p).

End Reference.

(** ** The basis layout *)

(** The offset table of [nbas] shells over [nao] orbitals: it starts at
    [0], never decreases and ends at [nao] ([ao_loc] has [nbas+1]
    entries). *)
Definition ao_loc_ok (ao_loc : ibuf) (nbas nao : Z) : Prop :=
  ao_loc 0 = 0 /\ ao_loc nbas = nao /\
  forall s, 0 <= s < nbas -> ao_loc s <= ao_loc (s + 1).

(** The four shells of a quadruplet exist. *)
Definition shls_ok (shls : ibuf) (nbas : Z) : Prop :=
  0 <= shls 0 < nbas /\ 0 <= shls 1 < nbas /\
  0 <= shls 2 < nbas /\ 0 <= shls 3 < nbas.

(** All four orbital ranges are ranges of the [nao] orbitals. *)
Definition quad_in_range (L : locijkl) (nao : Z) : Prop :=
  (0 <= istart L <= iend L /\ iend L <= nao) /\
  (0 <= jstart L <= jend L /\ jend L <= nao) /\
  (0 <= kstart L <= kend L /\ kend L <= nao) /\
  (0 <= lstart L <= lend L /\ lend L <= nao).

(** The sizes are the lengths of the ranges, as [LOCIJKL] sets them. *)
Definition loc_sizes (L : locijkl) : Prop :=
  di L = iend L - istart L /\ dj L = jend L - jstart L /\
  dk L = kend L - kstart L /\ dl L = lend L - lstart L.

(** The locals of a [CVHFrha4] K-build kernel on entry to its second loop:
    [eri] and [vk] are where the kernel received them, the scratch vector is
    what the first loop left. *)
Definition rha4_second {C : Type} (st1 : locals C) : locals C :=
  {| mem := mem st1; eri_p := 0; p0213_p := p0213_p st1; vjk_p := 0;
     tmp := tmp st1 |}.

(** ** The scratch vector of each loop

    What a pass hands to the back-distribution, as a function of the locals
    on entry to the pass. *)

Section Scratch.
Context {C : Type} `{Scalar C}.

Definition jk_svk (eri sdm : buf C) (L : locijkl) (st : locals C) : buf C :=
  zgemv_ TRANSN (di L * dk L) (dj L * dl L) Cmone
         (offset eri (p0213_p st)) (di L * dk L) sdm Cone
         (NPzset0 (tmp st) (di L * dk L)).

Definition li_svk (eri sdm : buf C) (L : locijkl) (st : locals C) : buf C :=
  zgemv_ TRANST (di L * dk L) (dj L * dl L) Cmone
         (offset eri (p0213_p st)) (di L * dk L) sdm Cone
         (NPzset0 (tmp st) (dl L * dj L)).

Definition rha4_jk_svk1 (eri sdm : buf C) (L : locijkl) (st : locals C) : buf C :=
  zgemv_ TRANST (di L * dk L) (dj L * dl L) Cone
         (offset eri (p0213_p st)) (di L * dk L) sdm Cone
         (NPzset0 (tmp st) (dj L * dl L)).

Definition rha4_li_svk1 (eri sdm : buf C) (L : locijkl) (st : locals C) : buf C :=
  zgemv_ TRANSN (di L * dk L) (dj L * dl L) Cone
         (offset eri (p0213_p st)) (di L * dk L) sdm Cone
         (NPzset0 (tmp st) (di L * dk L)).

(** The loop over [l] of the second loop of [CVHFrha4_jk_s1il]: scratch
    vector and [eri] pointer. *)
Definition rha4_jk_inner (eri sdm : buf C) (L : locijkl) (svk : buf C) (ep : Z)
    : buf C * Z :=
  for_range 0 (dl L)
    (fun l (se : buf C * Z) =>
       let '(svk, ep) := se in
       (zgemv_ TRANST (di L) (dj L * dk L) Cmone (offset eri ep) (di L)
               (offset sdm (l * di L)) Cone svk,
        ep + di L * dk L * dj L))
    (svk, ep).

(** The loop over [l] of the second loop of [CVHFrha4_li_s1kj]. *)
Definition rha4_li_inner (eri sdm : buf C) (L : locijkl) (svk : buf C) (ep : Z)
    : buf C * Z :=
  for_range 0 (dl L)
    (fun l (se : buf C * Z) =>
       let '(svk, ep) := se in
       (at_offset (l * di L)
          (fun y => zgemv_ TRANSN (di L) (dj L * dk L) Cmone (offset eri ep)
                           (di L) sdm Cone y)
          svk,
        ep + di L * dk L * dj L))
    (svk, ep).

End Scratch.

(** ** Stand-ins for running the kernels

    Implementations of the two interfaces over the integers, for a
    time-reversal map that pairs every orbital with itself.  They serve to
    evaluate the kernels on concrete inputs. *)
Module Plain.

#[global] Instance ZScalar : Scalar Z :=
  {| Cadd := Z.add; Cmul := Z.mul; Czero := 0; Cone := 1; Cmone := -1;
     indet := fun _ => 0 |}.

(** Modelled from the spec: the "block" reductions of time_rev.c, which is
    absent; "straightforward ... copy under the [tao] permutation" of the
    block [istart..iend) by [jstart..jend), row by row, for the identity
    pairing. *)
Definition copy_block : timerev Z :=
  fun mat tao istart iend jstart jend nao r =>
    let dj := jend - jstart in
    mat ((istart + r / dj) * nao + (jstart + r mod dj)).

(** Modelled from the spec: the "blockT" reductions of time_rev.c, which is
    absent; the "transposed copy" of the same block. *)
Definition copy_blockT : timerev Z :=
  fun mat tao istart iend jstart jend nao r =>
    let di := iend - istart in
    mat ((istart + r mod di) * nao + (jstart + r / di)).

(** Modelled from the spec: [CVHFtimerev_ijminus] of time_rev.c, which is
    absent; "combine block at [(l,k)] and its time-reversal partner with a
    subtraction", the partner of entry [(i,j)] being entry [(j,i)] for the
    identity pairing. *)
Definition minus_block : timerev Z :=
  fun mat tao istart iend jstart jend nao r =>
    let dj := jend - jstart in
    let i := istart + r / dj in
    let j := jstart + r mod dj in
    mat (i * nao + j) - mat (j * nao + i).

(** Modelled from the spec: the back-distributions of time_rev.c, which is
    absent; results go back into the output block "accumulating rather than
    overwriting". *)
Definition add_back : timerev_adbak Z :=
  fun blk mat tao istart iend jstart jend nao =>
    adbak_blockT mat blk nao istart iend jstart jend.

#[global] Instance PlainTimeRev : TimeRev Z :=
  {| CVHFtimerev_ijminus := minus_block;
     CVHFtimerev_i := copy_block;
     CVHFtimerev_j := copy_block;
     CVHFtimerev_iT := copy_blockT;
     CVHFtimerev_jT := copy_blockT;
     CVHFtimerev_block := copy_block;
     CVHFtimerev_blockT := copy_blockT;
     CVHFtimerev_adbak_i := add_back;
     CVHFtimerev_adbak_j := add_back;
     CVHFtimerev_adbak_iT := add_back;
     CVHFtimerev_adbak_jT := add_back;
     CVHFtimerev_adbak_block := add_back;
     CVHFtimerev_adbak_blockT := add_back |}.

(** Modelled from the spec: a kernel of r_direct_dot.c, which is absent;
    "one dense linear-algebra contraction ... between the integral block and
    a density-matrix slice", per component, accumulated into the output
    block.  The screening arguments are not consulted. *)
Definition contract : kernel Z Z :=
  fun eri dm vj nao ncomp shls ao_loc tao dm_cond nbas dm_atleast =>
    let L := LOCIJKL shls ao_loc in
    let sdm := copy_block dm tao (lstart L) (lend L) (kstart L) (kend L) nao in
    mem (for_range 0 ncomp (lk_s1ij_step eri sdm nao L)
           {| mem := vj; eri_p := 0; p0213_p := 0; vjk_p := 0;
              tmp := indet |}).

#[global] Instance PlainRs : RsKernels Z Z :=
  {| CVHFrs1_ji_s1kl := contract;
     CVHFrs1_lk_s1ij := contract;
     CVHFrs1_jk_s1il := contract;
     CVHFrs1_li_s1kj := contract;
     CVHFrs2ij_ji_s1kl := contract;
     CVHFrs2ij_lk_s2ij := contract;
     CVHFrs2ij_jk_s1il := contract;
     CVHFrs2ij_li_s1kj := contract |}.

(** Shells of one orbital each: [ao_loc[s] = s]. *)
Definition ao_unit : ibuf := fun s => s.

(** A shell of one orbital followed by a shell of two:
    [ao_loc = {0, 1, 3}]. *)
Definition ao_12 : ibuf :=
  fun s => if s <=? 0 then 0 else if s =? 1 then 1 else 3.

(** A shell quadruplet. *)
Definition quad (i j k l : Z) : ibuf :=
  fun n => if n =? 0 then i else if n =? 1 then j else if n =? 2 then k else l.

(** A buffer given by its first elements, zero beyond. *)
Definition of_list (l : list Z) : buf Z :=
  fun i => if i <? 0 then 0 else nth (Z.to_nat i) l 0.

Definition zeros : buf Z := fun _ => 0.

(** Every orbital its own partner (the map is 1-based). *)
Definition tao_self : ibuf := fun i => i + 1.

(** Screening data that is never tight. *)
Definition no_cond : Z -> Z := fun _ => 0.

(** [out] holds [before] plus one half of what [full] has on top of
    [before]. *)
Definition half_of (before full out : buf Z) : Prop :=
  forall q, 2 * (out q - before q) = full q - before q.

(** The entries [l] of a result. *)
Definition read (o : outcome (buf Z)) (l : list Z) : option (list Z) :=
  match o with
  | Done v => Some (map v l)
  | AssertFail => None
  end.

End Plain.

(** * Properties *)

(** ** Loops and stores *)

Lemma for_loop_inv {St : Type} (P : Z -> St -> Prop) (body : Z -> St -> St) :
  forall (n : nat) (i : Z) (s : St),
    P i s ->
    (forall k t, i <= k < i + Z.of_nat n -> P k t -> P (k + 1) (body k t)) ->
    P (i + Z.of_nat n) (for_loop n i body s).
Proof.
  induction n as [|n IH]; intros i s H0 Hstep.
  - simpl. replace (i + 0) with i by lia. exact H0.
  - cbn [for_loop].
    replace (i + Z.of_nat (S n)) with ((i + 1) + Z.of_nat n) by lia.
    apply IH.
    + apply Hstep; [lia | exact H0].
    + intros k t Hk. apply Hstep. lia.
Qed.

Lemma for_range_inv {St : Type} (P : Z -> St -> Prop) (body : Z -> St -> St)
    (lo hi : Z) (s : St) :
  lo <= hi ->
  P lo s ->
  (forall k t, lo <= k < hi -> P k t -> P (k + 1) (body k t)) ->
  P hi (for_range lo hi body s).
Proof.
  intros Hle H0 Hstep. unfold for_range.
  replace hi with (lo + Z.of_nat (Z.to_nat (hi - lo))) at 1 by lia.
  apply for_loop_inv; [exact H0|].
  intros k t Hk. apply Hstep. lia.
Qed.

Lemma for_range_empty {St : Type} (body : Z -> St -> St) (lo hi : Z) (s : St) :
  hi <= lo -> for_range lo hi body s = s.
Proof.
  intros Hle. unfold for_range.
  replace (Z.to_nat (hi - lo)) with O by lia. reflexivity.
Qed.

(** Two loops of the same length keep a relation between their states. *)
Lemma for_range_rel {St T : Type} (R : Z -> St -> T -> Prop)
    (f : Z -> St -> St) (g : Z -> T -> T) (lo hi : Z) (s : St) (t : T) :
  lo <= hi ->
  R lo s t ->
  (forall k a b, lo <= k < hi -> R k a b -> R (k + 1) (f k a) (g k b)) ->
  R hi (for_range lo hi f s) (for_range lo hi g t).
Proof.
  intros Hle H0 Hstep. unfold for_range.
  set (n := Z.to_nat (hi - lo)).
  replace hi with (lo + Z.of_nat n) at 1 by lia.
  assert (Hn : lo + Z.of_nat n <= hi) by lia.
  clearbody n. revert lo s t Hle H0 Hstep Hn.
  induction n as [|n IH]; intros lo s t Hle H0 Hstep Hn.
  - simpl. replace (lo + 0) with lo by lia. exact H0.
  - cbn [for_loop].
    replace (lo + Z.of_nat (S n)) with ((lo + 1) + Z.of_nat n) by lia.
    apply IH; try lia.
    + apply Hstep; [lia | exact H0].
    + intros k a b Hk. apply Hstep. lia.
Qed.

Lemma store_same {C} (p : buf C) (i : Z) (v : C) : store p i v i = v.
Proof. unfold store. rewrite Z.eqb_refl. reflexivity. Qed.

Lemma store_other {C} (p : buf C) (i q : Z) (v : C) :
  q <> i -> store p i v q = p q.
Proof. intros Hne. unfold store. destruct (Z.eqb_spec q i); [contradiction | reflexivity]. Qed.

(** ** Back-distribution: [adbak_blockT] *)

Section Adbak.
Context {C : Type} `{Scalar C}.

(** One row: the inner loop over [j]. *)
Lemma adbak_row (blk : buf C) (m i1 ap jstart jend : Z) (mem0 : buf C) (q : Z) :
  for_range jstart jend
    (fun j mem => store mem (ap + j)
                    (Cadd (mem (ap + j)) (blk ((j - jstart) * m + i1)))) mem0 q
  = if (ap + jstart <=? q) && (q <? ap + jend)
    then Cadd (mem0 q) (blk ((q - ap - jstart) * m + i1))
    else mem0 q.
Proof.
  destruct (Z_le_gt_dec jstart jend) as [Hle|Hgt].
  2:{ rewrite for_range_empty by lia.
      destruct (Z.leb_spec (ap + jstart) q), (Z.ltb_spec q (ap + jend));
        simpl; try reflexivity; lia. }
  revert q.
  apply (for_range_inv
           (fun j (mem : buf C) => forall q,
              mem q = if (ap + jstart <=? q) && (q <? ap + j)
                      then Cadd (mem0 q) (blk ((q - ap - jstart) * m + i1))
                      else mem0 q)); [exact Hle | |].
  - intros q.
    destruct (Z.leb_spec (ap + jstart) q), (Z.ltb_spec q (ap + jstart));
      simpl; try reflexivity; lia.
  - intros j mem Hj IH q.
    destruct (Z.eq_dec q (ap + j)) as [->|Hne].
    + rewrite store_same, IH.
      destruct (Z.leb_spec (ap + jstart) (ap + j)),
               (Z.ltb_spec (ap + j) (ap + j)),
               (Z.ltb_spec (ap + j) (ap + (j + 1))); simpl; try lia.
      f_equal. f_equal. f_equal; lia.
    + rewrite store_other by exact Hne. rewrite IH.
      destruct (Z.leb_spec (ap + jstart) q), (Z.ltb_spec q (ap + j)),
               (Z.ltb_spec q (ap + (j + 1))); simpl; try reflexivity; lia.
Qed.

(** Position of a flat index inside row [i] of an [n]-column matrix. *)
Lemma row_index (n i jstart jend q : Z) :
  0 <= jstart -> jend <= n ->
  i * n + jstart <= q < i * n + jend ->
  q / n = i /\ q mod n = q - i * n.
Proof.
  intros H0 Hn Hq.
  assert (Hpos : 0 < n) by lia.
  assert (Hd : q / n = i).
  { symmetry. apply (Z.div_unique q n i (q - i * n)); lia. }
  split; [exact Hd|].
  pose proof (Z.div_mod q n ltac:(lia)) as E. rewrite Hd in E. lia.
Qed.

(** Outside row [i] nothing of the row pattern matches. *)
Ltac off_row Hoff istart jstart jend i q n :=
  let Hrow := fresh "Hrow" in
  assert (Hrow := Hoff i q ltac:(lia));
  destruct (Z.leb_spec istart (q / n)), (Z.ltb_spec (q / n) i),
           (Z.ltb_spec (q / n) (i + 1)),
           (Z.leb_spec jstart (q mod n)),
           (Z.ltb_spec (q mod n) jend); simpl; try reflexivity;
  exfalso; apply Hrow; lia.

Lemma adbak_blockT_rows (a blk : buf C) (n istart iend jstart jend : Z) :
  0 <= jstart -> jend <= n ->
  forall q,
    adbak_blockT a blk n istart iend jstart jend q
    = rows_added a blk n (iend - istart) istart iend jstart jend q.
Proof.
  intros H0 Hn. unfold adbak_blockT.
  assert (Hoff : forall i q, ~ (i * n + jstart <= q < i * n + jend) ->
                 ~ (q / n = i /\ jstart <= q mod n < jend)).
  { intros i q Hq [Er Hc]. pose proof (Z.div_mod q n) as E.
    destruct (Z.eq_dec n 0) as [->|Hn0]; [lia|].
    specialize (E Hn0). rewrite Er in E. lia. }
  destruct (Z_le_gt_dec istart iend) as [Hle|Hgt].
  2:{ rewrite for_range_empty by lia. intros q. unfold rows_added. simpl.
      destruct (Z.leb_spec istart (q / n)), (Z.ltb_spec (q / n) iend);
        simpl; try reflexivity; lia. }
  set (m := iend - istart).
  assert (Inv :
    (fun i (st : buf C * Z) =>
       snd st = i * n /\
       forall q, fst st q = rows_added a blk n m istart i jstart jend q)
      iend
      (for_range istart iend
         (fun i (st : buf C * Z) =>
            let '(mem, ap) := st in
            (for_range jstart jend
               (fun j mem => store mem (ap + j)
                  (Cadd (mem (ap + j)) (blk ((j - jstart) * m + (i - istart)))))
               mem, ap + n))
         (a, istart * n))).
  { apply for_range_inv; [exact Hle | |].
    - split; [reflexivity|]. intros q. unfold rows_added. simpl.
      destruct (Z.leb_spec istart (q / n)), (Z.ltb_spec (q / n) istart);
        simpl; try reflexivity; lia.
    - intros i [mem0 ap] Hi [Hap IH]. simpl in Hap, IH. subst ap.
      split; [simpl; lia|]. intros q. simpl fst.
      rewrite adbak_row, IH. unfold rows_added.
      destruct (Z.leb_spec (i * n + jstart) q) as [Hq1|Hq1];
        destruct (Z.ltb_spec q (i * n + jend)) as [Hq2|Hq2]; simpl.
      + destruct (row_index n i jstart jend q H0 Hn (conj Hq1 Hq2)) as [Er Ec].
        rewrite Er, Ec.
        destruct (Z.leb_spec istart i), (Z.ltb_spec i i),
                 (Z.ltb_spec i (i + 1)),
                 (Z.leb_spec jstart (q - i * n)),
                 (Z.ltb_spec (q - i * n) jend); simpl; try lia.
        reflexivity.
      + off_row Hoff istart jstart jend i q n.
      + off_row Hoff istart jstart jend i q n.
      + off_row Hoff istart jstart jend i q n. }
  destruct Inv as [_ Inv]. exact Inv.
Qed.

End Adbak.

Section AdbakClaim.
Context {C : Type} `{Scalar C}.

Lemma flat_div (n i j : Z) : 0 <= j < n -> (i * n + j) / n = i.
Proof.
  intros Hj. symmetry. apply (Z.div_unique (i * n + j) n i j); lia.
Qed.

Lemma flat_mod (n i j : Z) : 0 <= j < n -> (i * n + j) mod n = j.
Proof.
  intros Hj. symmetry. apply (Z.mod_unique (i * n + j) n i j); lia.
Qed.

Lemma rows_added_inside (a blk : buf C) (n m istart iend jstart jend i j : Z) :
  0 <= jstart -> jend <= n ->
  istart <= i < iend -> jstart <= j < jend ->
  rows_added a blk n m istart iend jstart jend (i * n + j)
  = Cadd (a (i * n + j)) (blk ((j - jstart) * m + (i - istart))).
Proof.
  intros H0 Hn Hi Hj. unfold rows_added.
  rewrite flat_div, flat_mod by lia.
  destruct (Z.leb_spec istart i), (Z.ltb_spec i iend),
           (Z.leb_spec jstart j), (Z.ltb_spec j jend); simpl; try lia.
  reflexivity.
Qed.

Lemma rows_added_outside (a blk : buf C) (n m istart iend jstart jend q : Z) :
  0 <= jstart -> jend <= n ->
  (forall i j, istart <= i < iend -> jstart <= j < jend -> q <> i * n + j) ->
  rows_added a blk n m istart iend jstart jend q = a q.
Proof.
  intros H0 Hn Hq. unfold rows_added.
  destruct (Z.leb_spec istart (q / n)), (Z.ltb_spec (q / n) iend),
           (Z.leb_spec jstart (q mod n)), (Z.ltb_spec (q mod n) jend);
    simpl; try reflexivity.
  exfalso. apply (Hq (q / n) (q mod n)); try lia.
  pose proof (Z.div_mod q n ltac:(lia)). lia.
Qed.

(** C6.  Back-distribution accumulates and never overwrites: for a column
    range inside the row width ([0 <= jstart], [jend <= n]),
    [adbak_blockT a blk n istart iend jstart jend] holds at every
    [i*n+j] with [istart <= i < iend], [jstart <= j < jend] the old value
    plus [blk[(j-jstart)*(iend-istart)+(i-istart)]], and every entry of
    [a] outside that index rectangle is unchanged. *)
Theorem adbak_blockT_accumulates (a blk : buf C) (n istart iend jstart jend : Z) :
  0 <= jstart -> jend <= n ->
  (forall i j, istart <= i < iend -> jstart <= j < jend ->
     adbak_blockT a blk n istart iend jstart jend (i * n + j)
     = Cadd (a (i * n + j))
            (blk ((j - jstart) * (iend - istart) + (i - istart))))
  /\
  (forall q,
     (forall i j, istart <= i < iend -> jstart <= j < jend -> q <> i * n + j) ->
     adbak_blockT a blk n istart iend jstart jend q = a q).
Proof.
  intros H0 Hn. split.
  - intros i j Hi Hj. rewrite adbak_blockT_rows by assumption.
    apply rows_added_inside; assumption.
  - intros q Hq. rewrite adbak_blockT_rows by assumption.
    apply rows_added_outside; assumption.
Qed.

End AdbakClaim.

Lemma adbak_blockT_accumulates_witness :
  let a := Plain.of_list [10; 20; 30; 40; 50; 60] in
  let blk := Plain.of_list [1; 2; 3; 4] in
  (forall i j, 0 <= i < 2 -> 1 <= j < 3 ->
     adbak_blockT a blk 3 0 2 1 3 (i * 3 + j)
     = a (i * 3 + j) + blk ((j - 1) * (2 - 0) + (i - 0)))
  /\
  (forall q,
     (forall i j, 0 <= i < 2 -> 1 <= j < 3 -> q <> i * 3 + j) ->
     adbak_blockT a blk 3 0 2 1 3 q = a q).
Proof.
  intros a blk.
  apply (@adbak_blockT_accumulates Z Plain.ZScalar a blk 3 0 2 1 3); lia.
Defined.

Example adbak_blockT_run :
  map (adbak_blockT (Plain.of_list [10; 20; 30; 40; 50; 60])
                    (Plain.of_list [1; 2; 3; 4]) 3 0 2 1 3)
      [0; 1; 2; 3; 4; 5; 6]
  = [10; 21; 33; 40; 52; 64; 0].
Proof. reflexivity. Qed.

(** ** Assertions, delegation and the collapsed pairs *)

Section Dispatch.
Context {C real : Type} `{Scalar C} `{RsKernels C real} `{TimeRev C}.

Lemma geb_true (a b : Z) : b <= a -> (a >=? b) = true.
Proof. intros Hle. apply Z.geb_le. exact Hle. Qed.

Lemma geb_false (a b : Z) : a < b -> (a >=? b) = false.
Proof.
  intros Hlt. destruct (a >=? b) eqn:E; [|reflexivity].
  apply Z.geb_le in E. lia.
Qed.

(** The three [rha2kl] kernels with extra terms finish once their assertion
    passes. *)
Lemma rha2kl_lk_s1ij_done eri dm vj nao ncomp shls ao_loc tao
    (dm_cond : Z -> real) nbas dm_atleast :
  shls 3 <= shls 2 ->
  exists v, CVHFrha2kl_lk_s1ij eri dm vj nao ncomp shls ao_loc tao
              dm_cond nbas dm_atleast = Done v.
Proof.
  intros Hle. unfold CVHFrha2kl_lk_s1ij. rewrite geb_true by exact Hle.
  simpl. destruct (shls 2 =? shls 3); eexists; reflexivity.
Qed.

Lemma rha2kl_jk_s1il_done eri dm vk nao ncomp shls ao_loc tao
    (dm_cond : Z -> real) nbas dm_atleast :
  shls 3 <= shls 2 ->
  exists v, CVHFrha2kl_jk_s1il eri dm vk nao ncomp shls ao_loc tao
              dm_cond nbas dm_atleast = Done v.
Proof.
  intros Hle. unfold CVHFrha2kl_jk_s1il. rewrite geb_true by exact Hle.
  simpl. destruct (shls 2 =? shls 3); eexists; reflexivity.
Qed.

Lemma rha2kl_li_s1kj_done eri dm vk nao ncomp shls ao_loc tao
    (dm_cond : Z -> real) nbas dm_atleast :
  shls 3 <= shls 2 ->
  exists v, CVHFrha2kl_li_s1kj eri dm vk nao ncomp shls ao_loc tao
              dm_cond nbas dm_atleast = Done v.
Proof.
  intros Hle. unfold CVHFrha2kl_li_s1kj. rewrite geb_true by exact Hle.
  simpl. destruct (shls 2 =? shls 3); eexists; reflexivity.
Qed.

Lemma rha4_jk_s1il_done eri dm vk nao ncomp shls ao_loc tao
    (dm_cond : Z -> real) nbas dm_atleast :
  shls 1 <= shls 0 -> shls 3 <= shls 2 ->
  exists v, CVHFrha4_jk_s1il eri dm vk nao ncomp shls ao_loc tao
              dm_cond nbas dm_atleast = Done v.
Proof.
  intros H01 H23. unfold CVHFrha4_jk_s1il.
  rewrite !geb_true by assumption. simpl.
  destruct (rha2kl_jk_s1il_done eri dm vk nao ncomp shls ao_loc tao
              dm_cond nbas dm_atleast H23) as [v ->]. simpl.
  destruct (shls 0 =? shls 1); [eexists; reflexivity|].
  destruct (shls 2 =? shls 3); eexists; reflexivity.
Qed.

Lemma rha4_li_s1kj_done eri dm vk nao ncomp shls ao_loc tao
    (dm_cond : Z -> real) nbas dm_atleast :
  shls 1 <= shls 0 -> shls 3 <= shls 2 ->
  exists v, CVHFrha4_li_s1kj eri dm vk nao ncomp shls ao_loc tao
              dm_cond nbas dm_atleast = Done v.
Proof.
  intros H01 H23. unfold CVHFrha4_li_s1kj.
  rewrite !geb_true by assumption. simpl.
  destruct (rha2kl_li_s1kj_done eri dm vk nao ncomp shls ao_loc tao
              dm_cond nbas dm_atleast H23) as [v ->]. simpl.
  destruct (shls 0 =? shls 1); [eexists; reflexivity|].
  destruct (shls 2 =? shls 3); eexists; reflexivity.
Qed.

(** C3.  Every [rha2kl] kernel aborts on its assertion exactly when
    [shls[2] < shls[3]], and every [rha4] kernel exactly when
    [shls[0] < shls[1]] or [shls[2] < shls[3]]: an out-of-order quadruplet
    is a failed assertion, and for a canonically ordered quadruplet no
    kernel of the two families reaches the failure. *)
Theorem rha_assertions eri dm vjk nao ncomp shls ao_loc tao
    (dm_cond : Z -> real) nbas dm_atleast :
  (CVHFrha2kl_ji_s2kl eri dm vjk nao ncomp shls ao_loc tao dm_cond nbas dm_atleast
     = AssertFail <-> shls 2 < shls 3) /\
  (CVHFrha2kl_lk_s1ij eri dm vjk nao ncomp shls ao_loc tao dm_cond nbas dm_atleast
     = AssertFail <-> shls 2 < shls 3) /\
  (CVHFrha2kl_jk_s1il eri dm vjk nao ncomp shls ao_loc tao dm_cond nbas dm_atleast
     = AssertFail <-> shls 2 < shls 3) /\
  (CVHFrha2kl_li_s1kj eri dm vjk nao ncomp shls ao_loc tao dm_cond nbas dm_atleast
     = AssertFail <-> shls 2 < shls 3) /\
  (CVHFrha4_ji_s2kl eri dm vjk nao ncomp shls ao_loc tao dm_cond nbas dm_atleast
     = AssertFail <-> shls 0 < shls 1 \/ shls 2 < shls 3) /\
  (CVHFrha4_lk_s2ij eri dm vjk nao ncomp shls ao_loc tao dm_cond nbas dm_atleast
     = AssertFail <-> shls 0 < shls 1 \/ shls 2 < shls 3) /\
  (CVHFrha4_jk_s1il eri dm vjk nao ncomp shls ao_loc tao dm_cond nbas dm_atleast
     = AssertFail <-> shls 0 < shls 1 \/ shls 2 < shls 3) /\
  (CVHFrha4_li_s1kj eri dm vjk nao ncomp shls ao_loc tao dm_cond nbas dm_atleast
     = AssertFail <-> shls 0 < shls 1 \/ shls 2 < shls 3).
Proof.
  repeat split.
  - unfold CVHFrha2kl_ji_s2kl. intros E.
    destruct (Z_lt_ge_dec (shls 2) (shls 3)); [assumption|].
    rewrite geb_true in E by lia. discriminate.
  - intros Hlt. unfold CVHFrha2kl_ji_s2kl. rewrite geb_false by lia. reflexivity.
  - intros E. destruct (Z_lt_ge_dec (shls 2) (shls 3)); [assumption|].
    destruct (rha2kl_lk_s1ij_done eri dm vjk nao ncomp shls ao_loc tao
                dm_cond nbas dm_atleast ltac:(lia)). congruence.
  - intros Hlt. unfold CVHFrha2kl_lk_s1ij. rewrite geb_false by lia. reflexivity.
  - intros E. destruct (Z_lt_ge_dec (shls 2) (shls 3)); [assumption|].
    destruct (rha2kl_jk_s1il_done eri dm vjk nao ncomp shls ao_loc tao
                dm_cond nbas dm_atleast ltac:(lia)). congruence.
  - intros Hlt. unfold CVHFrha2kl_jk_s1il. rewrite geb_false by lia. reflexivity.
  - intros E. destruct (Z_lt_ge_dec (shls 2) (shls 3)); [assumption|].
    destruct (rha2kl_li_s1kj_done eri dm vjk nao ncomp shls ao_loc tao
                dm_cond nbas dm_atleast ltac:(lia)). congruence.
  - intros Hlt. unfold CVHFrha2kl_li_s1kj. rewrite geb_false by lia. reflexivity.
  - unfold CVHFrha4_ji_s2kl. intros E.
    destruct (Z_lt_ge_dec (shls 0) (shls 1)); [left; assumption|].
    destruct (Z_lt_ge_dec (shls 2) (shls 3)); [right; assumption|].
    rewrite !geb_true in E by lia. discriminate.
  - intros [Hlt|Hlt]; unfold CVHFrha4_ji_s2kl.
    + rewrite geb_false by lia. reflexivity.
    + rewrite (geb_false (shls 2)) by lia. destruct (shls 0 >=? shls 1); reflexivity.
  - unfold CVHFrha4_lk_s2ij. intros E.
    destruct (Z_lt_ge_dec (shls 0) (shls 1)); [left; assumption|].
    destruct (Z_lt_ge_dec (shls 2) (shls 3)); [right; assumption|].
    rewrite !geb_true in E by lia. simpl in E.
    destruct (rha2kl_lk_s1ij_done eri dm vjk nao ncomp shls ao_loc tao
                dm_cond nbas dm_atleast ltac:(lia)). congruence.
  - intros [Hlt|Hlt]; unfold CVHFrha4_lk_s2ij.
    + rewrite geb_false by lia. reflexivity.
    + rewrite (geb_false (shls 2)) by lia. destruct (shls 0 >=? shls 1); reflexivity.
  - intros E.
    destruct (Z_lt_ge_dec (shls 0) (shls 1)); [left; assumption|].
    destruct (Z_lt_ge_dec (shls 2) (shls 3)); [right; assumption|].
    destruct (rha4_jk_s1il_done eri dm vjk nao ncomp shls ao_loc tao
                dm_cond nbas dm_atleast ltac:(lia) ltac:(lia)). congruence.
  - intros [Hlt|Hlt]; unfold CVHFrha4_jk_s1il.
    + rewrite geb_false by lia. reflexivity.
    + rewrite (geb_false (shls 2)) by lia. destruct (shls 0 >=? shls 1); reflexivity.
  - intros E.
    destruct (Z_lt_ge_dec (shls 0) (shls 1)); [left; assumption|].
    destruct (Z_lt_ge_dec (shls 2) (shls 3)); [right; assumption|].
    destruct (rha4_li_s1kj_done eri dm vjk nao ncomp shls ao_loc tao
                dm_cond nbas dm_atleast ltac:(lia) ltac:(lia)). congruence.
  - intros [Hlt|Hlt]; unfold CVHFrha4_li_s1kj.
    + rewrite geb_false by lia. reflexivity.
    + rewrite (geb_false (shls 2)) by lia. destruct (shls 0 >=? shls 1); reflexivity.
Qed.

End Dispatch.

Section Collapse.
Context {C real : Type} `{Scalar C} `{RsKernels C real} `{TimeRev C}.

(** C5.  With [shls[2] == shls[3]] each of [CVHFrha2kl_lk_s1ij],
    [CVHFrha2kl_jk_s1il], [CVHFrha2kl_li_s1kj] returns exactly what the
    matching [CVHFrs1] kernel leaves in the output, the time-reversal term
    being skipped (as [CVHFrha2kl_ji_s2kl], which has no such term, always
    does); with [shls[0] == shls[1]] the two [rha4] K-build kernels add
    nothing to what their [rha2kl] counterpart does. *)
Theorem rha_collapsed_pair eri dm vjk nao ncomp shls ao_loc tao
    (dm_cond : Z -> real) nbas dm_atleast :
  (shls 2 = shls 3 ->
     CVHFrha2kl_lk_s1ij eri dm vjk nao ncomp shls ao_loc tao dm_cond nbas dm_atleast
       = Done (CVHFrs1_lk_s1ij eri dm vjk nao ncomp shls ao_loc tao
                 dm_cond nbas dm_atleast) /\
     CVHFrha2kl_jk_s1il eri dm vjk nao ncomp shls ao_loc tao dm_cond nbas dm_atleast
       = Done (CVHFrs1_jk_s1il eri dm vjk nao ncomp shls ao_loc tao
                 dm_cond nbas dm_atleast) /\
     CVHFrha2kl_li_s1kj eri dm vjk nao ncomp shls ao_loc tao dm_cond nbas dm_atleast
       = Done (CVHFrs1_li_s1kj eri dm vjk nao ncomp shls ao_loc tao
                 dm_cond nbas dm_atleast) /\
     CVHFrha2kl_ji_s2kl eri dm vjk nao ncomp shls ao_loc tao dm_cond nbas dm_atleast
       = Done (CVHFrs1_ji_s1kl eri dm vjk nao ncomp shls ao_loc tao
                 dm_cond nbas dm_atleast))
  /\
  (shls 0 = shls 1 ->
     CVHFrha4_jk_s1il eri dm vjk nao ncomp shls ao_loc tao dm_cond nbas dm_atleast
       = CVHFrha2kl_jk_s1il eri dm vjk nao ncomp shls ao_loc tao
           dm_cond nbas dm_atleast /\
     CVHFrha4_li_s1kj eri dm vjk nao ncomp shls ao_loc tao dm_cond nbas dm_atleast
       = CVHFrha2kl_li_s1kj eri dm vjk nao ncomp shls ao_loc tao
           dm_cond nbas dm_atleast).
Proof.
  split.
  - intros E.
    unfold CVHFrha2kl_lk_s1ij, CVHFrha2kl_jk_s1il, CVHFrha2kl_li_s1kj,
      CVHFrha2kl_ji_s2kl.
    rewrite geb_true by lia.
    assert (Eb : (shls 2 =? shls 3) = true) by (apply Z.eqb_eq; exact E).
    simpl. rewrite Eb. repeat split; reflexivity.
  - intros E.
    assert (Eb : (shls 0 =? shls 1) = true) by (apply Z.eqb_eq; exact E).
    unfold CVHFrha4_jk_s1il, CVHFrha4_li_s1kj.
    rewrite (geb_true (shls 0)) by lia. rewrite Eb. simpl.
    destruct (Z_lt_ge_dec (shls 2) (shls 3)) as [Hlt|Hge].
    + unfold CVHFrha2kl_jk_s1il, CVHFrha2kl_li_s1kj.
      rewrite geb_false by lia. split; reflexivity.
    + rewrite geb_true by lia. simpl. split.
      * destruct (CVHFrha2kl_jk_s1il eri dm vjk nao ncomp shls ao_loc tao
                    dm_cond nbas dm_atleast); reflexivity.
      * destruct (CVHFrha2kl_li_s1kj eri dm vjk nao ncomp shls ao_loc tao
                    dm_cond nbas dm_atleast); reflexivity.
Qed.

(** C4, as the code has it.  For a quadruplet with [shls[2] == shls[3]] the
    kernels [CVHFrha2kl_lk_s1ij] and [CVHFrha2kl_jk_s1il] apply no factor:
    the integral block goes unscaled to the [CVHFrs1] kernel, whose result is
    the kernel's result; double counting is avoided by leaving the
    time-reversal partner term out.  The same holds for the [rha4] K-build
    kernel when in addition [shls[0] == shls[1]]. *)
Theorem rha_diagonal_unscaled eri dm vjk nao ncomp shls ao_loc tao
    (dm_cond : Z -> real) nbas dm_atleast :
  shls 2 = shls 3 ->
  CVHFrha2kl_lk_s1ij eri dm vjk nao ncomp shls ao_loc tao dm_cond nbas dm_atleast
    = Done (CVHFrs1_lk_s1ij eri dm vjk nao ncomp shls ao_loc tao
              dm_cond nbas dm_atleast) /\
  CVHFrha2kl_jk_s1il eri dm vjk nao ncomp shls ao_loc tao dm_cond nbas dm_atleast
    = Done (CVHFrs1_jk_s1il eri dm vjk nao ncomp shls ao_loc tao
              dm_cond nbas dm_atleast) /\
  (shls 0 = shls 1 ->
   CVHFrha4_jk_s1il eri dm vjk nao ncomp shls ao_loc tao dm_cond nbas dm_atleast
     = Done (CVHFrs1_jk_s1il eri dm vjk nao ncomp shls ao_loc tao
               dm_cond nbas dm_atleast)).
Proof.
  intros E.
  assert (Eb : (shls 2 =? shls 3) = true) by (apply Z.eqb_eq; exact E).
  assert (Ejk :
    CVHFrha2kl_jk_s1il eri dm vjk nao ncomp shls ao_loc tao dm_cond nbas dm_atleast
    = Done (CVHFrs1_jk_s1il eri dm vjk nao ncomp shls ao_loc tao
              dm_cond nbas dm_atleast)).
  { unfold CVHFrha2kl_jk_s1il. rewrite geb_true by lia. simpl.
    rewrite Eb. reflexivity. }
  split; [|split].
  - unfold CVHFrha2kl_lk_s1ij. rewrite geb_true by lia. simpl.
    rewrite Eb. reflexivity.
  - exact Ejk.
  - intros E01. unfold CVHFrha4_jk_s1il.
    rewrite !geb_true by lia. simpl. rewrite Ejk. simpl.
    replace (shls 0 =? shls 1) with true by (symmetry; apply Z.eqb_eq; exact E01).
    reflexivity.
Qed.

(** C10.  The [s1] kernels are the [CVHFrs1] kernels, and for
    [shls[0] >= shls[1]], [shls[2] >= shls[3]] the two J-build kernels of the
    [rha4] family are [CVHFrs2ij_ji_s1kl] and [CVHFrha2kl_lk_s1ij]. *)
Theorem rha_wrappers eri dm vjk nao ncomp shls ao_loc tao
    (dm_cond : Z -> real) nbas dm_atleast :
  (CVHFrha1_ji_s1kl = CVHFrs1_ji_s1kl /\
   CVHFrha1_lk_s1ij = CVHFrs1_lk_s1ij /\
   CVHFrha1_jk_s1il = CVHFrs1_jk_s1il /\
   CVHFrha1_li_s1kj = CVHFrs1_li_s1kj)
  /\
  (shls 0 >= shls 1 -> shls 2 >= shls 3 ->
     CVHFrha4_ji_s2kl eri dm vjk nao ncomp shls ao_loc tao dm_cond nbas dm_atleast
       = Done (CVHFrs2ij_ji_s1kl eri dm vjk nao ncomp shls ao_loc tao
                 dm_cond nbas dm_atleast) /\
     CVHFrha4_lk_s2ij eri dm vjk nao ncomp shls ao_loc tao dm_cond nbas dm_atleast
       = CVHFrha2kl_lk_s1ij eri dm vjk nao ncomp shls ao_loc tao
           dm_cond nbas dm_atleast).
Proof.
  split.
  - repeat split; reflexivity.
  - intros H01 H23. unfold CVHFrha4_ji_s2kl, CVHFrha4_lk_s2ij.
    rewrite !geb_true by lia. split; reflexivity.
Qed.

End Collapse.

(** ** The screening arguments *)

Section Screening.
Context {C real : Type} `{Scalar C} `{RsKernels C real} `{TimeRev C}.

(** C9.  [dm_cond] and [dm_atleast] reach the output only through the
    delegated [CVHFrs] call: for two values of them, all else equal,
    whenever the delegated call leaves the same output the whole kernel
    does, so the time-reversal terms added here are the same.  On the path
    of [CVHFrha2kl_lk_s1ij] (and [CVHFrha4_lk_s2ij]) that delegates nothing,
    [shls[2] <> shls[3]], the result does not depend on them at all. *)
Theorem rha_screening_unread eri dm vjk nao ncomp shls ao_loc tao nbas
    (dm_cond dm_cond' : Z -> real) (dm_atleast dm_atleast' : real) :
  (CVHFrs1_ji_s1kl eri dm vjk nao ncomp shls ao_loc tao dm_cond nbas dm_atleast
   = CVHFrs1_ji_s1kl eri dm vjk nao ncomp shls ao_loc tao dm_cond' nbas dm_atleast' ->
   CVHFrha2kl_ji_s2kl eri dm vjk nao ncomp shls ao_loc tao dm_cond nbas dm_atleast
   = CVHFrha2kl_ji_s2kl eri dm vjk nao ncomp shls ao_loc tao dm_cond' nbas dm_atleast')
  /\
  ((shls 2 = shls 3 ->
    CVHFrs1_lk_s1ij eri dm vjk nao ncomp shls ao_loc tao dm_cond nbas dm_atleast
    = CVHFrs1_lk_s1ij eri dm vjk nao ncomp shls ao_loc tao dm_cond' nbas dm_atleast') ->
   CVHFrha2kl_lk_s1ij eri dm vjk nao ncomp shls ao_loc tao dm_cond nbas dm_atleast
   = CVHFrha2kl_lk_s1ij eri dm vjk nao ncomp shls ao_loc tao dm_cond' nbas dm_atleast'
   /\
   CVHFrha4_lk_s2ij eri dm vjk nao ncomp shls ao_loc tao dm_cond nbas dm_atleast
   = CVHFrha4_lk_s2ij eri dm vjk nao ncomp shls ao_loc tao dm_cond' nbas dm_atleast')
  /\
  (CVHFrs1_jk_s1il eri dm vjk nao ncomp shls ao_loc tao dm_cond nbas dm_atleast
   = CVHFrs1_jk_s1il eri dm vjk nao ncomp shls ao_loc tao dm_cond' nbas dm_atleast' ->
   CVHFrha2kl_jk_s1il eri dm vjk nao ncomp shls ao_loc tao dm_cond nbas dm_atleast
   = CVHFrha2kl_jk_s1il eri dm vjk nao ncomp shls ao_loc tao dm_cond' nbas dm_atleast'
   /\
   CVHFrha4_jk_s1il eri dm vjk nao ncomp shls ao_loc tao dm_cond nbas dm_atleast
   = CVHFrha4_jk_s1il eri dm vjk nao ncomp shls ao_loc tao dm_cond' nbas dm_atleast')
  /\
  (CVHFrs1_li_s1kj eri dm vjk nao ncomp shls ao_loc tao dm_cond nbas dm_atleast
   = CVHFrs1_li_s1kj eri dm vjk nao ncomp shls ao_loc tao dm_cond' nbas dm_atleast' ->
   CVHFrha2kl_li_s1kj eri dm vjk nao ncomp shls ao_loc tao dm_cond nbas dm_atleast
   = CVHFrha2kl_li_s1kj eri dm vjk nao ncomp shls ao_loc tao dm_cond' nbas dm_atleast'
   /\
   CVHFrha4_li_s1kj eri dm vjk nao ncomp shls ao_loc tao dm_cond nbas dm_atleast
   = CVHFrha4_li_s1kj eri dm vjk nao ncomp shls ao_loc tao dm_cond' nbas dm_atleast')
  /\
  (CVHFrs2ij_ji_s1kl eri dm vjk nao ncomp shls ao_loc tao dm_cond nbas dm_atleast
   = CVHFrs2ij_ji_s1kl eri dm vjk nao ncomp shls ao_loc tao dm_cond' nbas dm_atleast' ->
   CVHFrha4_ji_s2kl eri dm vjk nao ncomp shls ao_loc tao dm_cond nbas dm_atleast
   = CVHFrha4_ji_s2kl eri dm vjk nao ncomp shls ao_loc tao dm_cond' nbas dm_atleast').
Proof.
  assert (Hlk :
    (shls 2 = shls 3 ->
     CVHFrs1_lk_s1ij eri dm vjk nao ncomp shls ao_loc tao dm_cond nbas dm_atleast
     = CVHFrs1_lk_s1ij eri dm vjk nao ncomp shls ao_loc tao dm_cond' nbas dm_atleast') ->
    CVHFrha2kl_lk_s1ij eri dm vjk nao ncomp shls ao_loc tao dm_cond nbas dm_atleast
    = CVHFrha2kl_lk_s1ij eri dm vjk nao ncomp shls ao_loc tao dm_cond' nbas dm_atleast').
  { intros E. unfold CVHFrha2kl_lk_s1ij.
    destruct (Z.eqb_spec (shls 2) (shls 3)) as [E23|N23].
    - rewrite (E E23). reflexivity.
    - reflexivity. }
  assert (Hjk :
    CVHFrs1_jk_s1il eri dm vjk nao ncomp shls ao_loc tao dm_cond nbas dm_atleast
    = CVHFrs1_jk_s1il eri dm vjk nao ncomp shls ao_loc tao dm_cond' nbas dm_atleast' ->
    CVHFrha2kl_jk_s1il eri dm vjk nao ncomp shls ao_loc tao dm_cond nbas dm_atleast
    = CVHFrha2kl_jk_s1il eri dm vjk nao ncomp shls ao_loc tao dm_cond' nbas dm_atleast').
  { intros E. unfold CVHFrha2kl_jk_s1il. rewrite E. reflexivity. }
  assert (Hli :
    CVHFrs1_li_s1kj eri dm vjk nao ncomp shls ao_loc tao dm_cond nbas dm_atleast
    = CVHFrs1_li_s1kj eri dm vjk nao ncomp shls ao_loc tao dm_cond' nbas dm_atleast' ->
    CVHFrha2kl_li_s1kj eri dm vjk nao ncomp shls ao_loc tao dm_cond nbas dm_atleast
    = CVHFrha2kl_li_s1kj eri dm vjk nao ncomp shls ao_loc tao dm_cond' nbas dm_atleast').
  { intros E. unfold CVHFrha2kl_li_s1kj. rewrite E. reflexivity. }
  split; [|split; [|split; [|split]]].
  - intros E. unfold CVHFrha2kl_ji_s2kl. rewrite E. reflexivity.
  - intros E. split; [exact (Hlk E)|].
    unfold CVHFrha4_lk_s2ij. rewrite (Hlk E). reflexivity.
  - intros E. split; [exact (Hjk E)|].
    unfold CVHFrha4_jk_s1il. rewrite (Hjk E). reflexivity.
  - intros E. split; [exact (Hli E)|].
    unfold CVHFrha4_li_s1kj. rewrite (Hli E). reflexivity.
  - intros E. unfold CVHFrha4_ji_s2kl. rewrite E. reflexivity.
Qed.

End Screening.

(** ** The J-build kernel with the time-reversal term *)

Section JBuild.
Context {C : Type} `{Scalar C}.

Lemma zsum_ext (n : Z) (f g : Z -> C) :
  (forall k, 0 <= k < n -> f k = g k) -> zsum n f = zsum n g.
Proof.
  intros E. unfold zsum.
  destruct (Z_le_gt_dec 0 n) as [Hle|Hgt].
  2:{ rewrite !for_range_empty by lia. reflexivity. }
  apply (for_range_rel (fun _ (a b : C) => a = b)); [exact Hle | reflexivity |].
  intros k a b Hk ->. rewrite (E k Hk). reflexivity.
Qed.

Lemma cell_bounds (n istart iend jstart jend i j : Z) :
  0 <= istart -> iend <= n -> 0 <= jstart -> jend <= n ->
  istart <= i < iend -> jstart <= j < jend ->
  0 <= i * n + j < n * n.
Proof. intros. nia. Qed.

Lemma block_index_bounds (istart iend jstart jend i j : Z) :
  istart <= i < iend -> jstart <= j < jend ->
  0 <= (j - jstart) * (iend - istart) + (i - istart)
    < (iend - istart) * (jend - jstart).
Proof. intros. nia. Qed.

Lemma at_offset_adbak (k : Z) (p blk : buf C) (n istart iend jstart jend q : Z) :
  0 <= jstart -> jend <= n ->
  at_offset k (fun a => adbak_blockT a blk n istart iend jstart jend) p q
  = rows_added (offset p k) blk n (iend - istart) istart iend jstart jend (q - k).
Proof.
  intros H0 Hn. unfold at_offset. apply adbak_blockT_rows; assumption.
Qed.

(** Entry [r] of the scratch vector after [NPzset0] and [zgemv_]. *)
Lemma lk_svj_entry (eri sdm t : buf C) (L : locijkl) (ic r : Z) :
  0 <= r < di L * dj L ->
  zgemv_ TRANSN (di L * dj L) (dk L * dl L) Cone
         (offset eri (ic * (di L * dj L * (dk L * dl L)))) (di L * dj L)
         sdm Czero (NPzset0 t (di L * dj L)) r
  = lk_svj eri sdm L ic r.
Proof.
  intros Hr. unfold lk_svj, zgemv_, NPzset0.
  destruct (Z.leb_spec 0 r), (Z.ltb_spec r (di L * dj L)); simpl; try lia.
  reflexivity.
Qed.

Lemma lk_s1ij_loop (eri sdm vj : buf C) (nao ncomp : Z) (L : locijkl) :
  ij_in_range L nao ->
  di L = iend L - istart L -> dj L = jend L - jstart L ->
  let v := mem (for_range 0 ncomp (lk_s1ij_step eri sdm nao L) (lk_init vj)) in
  (forall ic i j,
     0 <= ic < ncomp -> istart L <= i < iend L -> jstart L <= j < jend L ->
     v (ic * (nao * nao) + i * nao + j)
     = Cadd (vj (ic * (nao * nao) + i * nao + j))
            (lk_svj eri sdm L ic ((j - jstart L) * di L + (i - istart L))))
  /\
  (forall q,
     (forall ic i j,
        0 <= ic < ncomp -> istart L <= i < iend L -> jstart L <= j < jend L ->
        q <> ic * (nao * nao) + i * nao + j) ->
     v q = vj q).
Proof.
  intros (Hi0 & Hi1 & Hj0 & Hj1) Edi Edj v. subst v.
  destruct (Z_le_gt_dec 0 ncomp) as [Hle|Hgt].
  2:{ rewrite for_range_empty by lia. simpl. split.
      - intros ic i j Hic. lia.
      - reflexivity. }
  set (N := nao * nao).
  assert (Inv :
    (fun k (st : locals C) =>
       eri_p st = k * (di L * dj L * (dk L * dl L)) /\
       vjk_p st = k * N /\
       (forall ic i j,
          0 <= ic < k -> istart L <= i < iend L -> jstart L <= j < jend L ->
          mem st (ic * N + i * nao + j)
          = Cadd (vj (ic * N + i * nao + j))
                 (lk_svj eri sdm L ic ((j - jstart L) * di L + (i - istart L))))
       /\
       (forall q,
          (forall ic i j,
             0 <= ic < k -> istart L <= i < iend L -> jstart L <= j < jend L ->
             q <> ic * N + i * nao + j) ->
          mem st q = vj q))
      ncomp (for_range 0 ncomp (lk_s1ij_step eri sdm nao L) (lk_init vj))).
  { apply for_range_inv; [exact Hle | |].
    - simpl. repeat split; lia.
    - intros k st Hk (Ee & Ev & IH1 & IH2).
      unfold lk_s1ij_step. cbn [mem eri_p vjk_p tmp p0213_p].
      rewrite Ee, Ev. repeat split; try lia.
      + intros ic i j Hic Hi Hj.
        pose proof (cell_bounds nao _ _ _ _ i j Hi0 Hi1 Hj0 Hj1 Hi Hj) as Hc.
        rewrite at_offset_adbak by assumption.
        destruct (Z.eq_dec ic k) as [->|Hne].
        * replace (k * N + i * nao + j - k * N) with (i * nao + j) by lia.
          rewrite rows_added_inside by assumption.
          unfold offset.
          replace (k * N + (i * nao + j)) with (k * N + i * nao + j) by lia.
          rewrite IH2.
          2:{ intros ic' i' j' Hic' Hi' Hj'.
              pose proof (cell_bounds nao _ _ _ _ i' j' Hi0 Hi1 Hj0 Hj1 Hi' Hj').
              fold N in Hc, H0. nia. }
          f_equal. rewrite <- Edi. apply lk_svj_entry.
          rewrite Edi, Edj. apply block_index_bounds; assumption.
        * rewrite rows_added_outside; try assumption.
          -- unfold offset.
             replace (k * N + (ic * N + i * nao + j - k * N))
               with (ic * N + i * nao + j) by lia.
             apply IH1; [lia | assumption | assumption].
          -- intros i' j' Hi' Hj'.
             pose proof (cell_bounds nao _ _ _ _ i' j' Hi0 Hi1 Hj0 Hj1 Hi' Hj').
             fold N in Hc, H0. nia.
      + intros q Hq.
        rewrite at_offset_adbak by assumption.
        rewrite rows_added_outside; try assumption.
        * unfold offset. replace (k * N + (q - k * N)) with q by lia.
          apply IH2. intros ic i j Hic. apply Hq. lia.
        * intros i j Hi Hj E.
          apply (Hq k i j); [lia | assumption | assumption | lia]. }
  destruct Inv as (_ & _ & I1 & I2). split; assumption.
Qed.

End JBuild.

Section JBuildClaims.
Context {C real : Type} `{Scalar C} `{RsKernels C real} `{TimeRev C}.

Lemma rha2kl_lk_s1ij_offdiag eri dm vj nao ncomp shls ao_loc tao
    (dm_cond : Z -> real) nbas dm_atleast :
  shls 2 > shls 3 ->
  CVHFrha2kl_lk_s1ij eri dm vj nao ncomp shls ao_loc tao dm_cond nbas dm_atleast
  = let L := LOCIJKL shls ao_loc in
    Done (mem (for_range 0 ncomp
                 (lk_s1ij_step eri
                    (CVHFtimerev_ijminus dm tao (lstart L) (lend L)
                                         (kstart L) (kend L) nao) nao L)
                 (lk_init vj))).
Proof.
  intros Hgt. unfold CVHFrha2kl_lk_s1ij. rewrite geb_true by lia. simpl.
  destruct (Z.eqb_spec (shls 2) (shls 3)) as [E|_]; [lia | reflexivity].
Qed.

(** C2.  For [shls[2] > shls[3]] the J-build kernel contracts the
    "ijminus" reduction of the density over rows [lstart..lend) and columns
    [kstart..kend) -- the block [CVHFtimerev_ijminus] returns for these
    ranges and the map [tao] -- by one [dij]-by-[dkl] matrix-vector product
    per component, and back-distributes the [dij] results transposed: entry
    [(i,j)] of rows [istart..iend), columns [jstart..jend) of the [ic]-th
    matrix of [vj] receives, added to its old value, entry
    [(j-jstart)*di + (i-istart)] of the product; nothing else changes. *)
Theorem rha2kl_lk_s1ij_contraction eri dm vj nao ncomp shls ao_loc tao
    (dm_cond : Z -> real) nbas dm_atleast :
  let L := LOCIJKL shls ao_loc in
  let sdm := CVHFtimerev_ijminus dm tao (lstart L) (lend L)
                                 (kstart L) (kend L) nao in
  shls 2 > shls 3 ->
  ij_in_range L nao ->
  exists v,
    CVHFrha2kl_lk_s1ij eri dm vj nao ncomp shls ao_loc tao dm_cond nbas dm_atleast
    = Done v
    /\
    (forall ic i j,
       0 <= ic < ncomp -> istart L <= i < iend L -> jstart L <= j < jend L ->
       v (ic * (nao * nao) + i * nao + j)
       = Cadd (vj (ic * (nao * nao) + i * nao + j))
              (lk_svj eri sdm L ic ((j - jstart L) * di L + (i - istart L))))
    /\
    (forall q,
       (forall ic i j,
          0 <= ic < ncomp -> istart L <= i < iend L -> jstart L <= j < jend L ->
          q <> ic * (nao * nao) + i * nao + j) ->
       v q = vj q)
    /\
    (forall ic r,
       0 <= r < di L * dj L ->
       lk_svj eri sdm L ic r
       = Cadd (Cmul Czero Czero)
              (Cmul Cone
                 (zsum (dk L * dl L)
                    (fun c => Cmul (eri (ic * (di L * dj L * (dk L * dl L))
                                         + (r + c * (di L * dj L))))
                                   (sdm c))))).
Proof.
  intros L sdm Hgt Hrange.
  rewrite rha2kl_lk_s1ij_offdiag by exact Hgt. cbv zeta. fold L. fold sdm.
  eexists. split; [reflexivity|].
  destruct (lk_s1ij_loop eri sdm vj nao ncomp L Hrange eq_refl eq_refl)
    as [I1 I2].
  split; [exact I1|]. split; [exact I2|].
  intros ic r Hr. unfold lk_svj, zgemv_, offset.
  destruct (Z.leb_spec 0 r), (Z.ltb_spec r (di L * dj L)); simpl; try lia.
  reflexivity.
Qed.

End JBuildClaims.

(** ** One component, one integral block, one output matrix *)

Section Components.
Context {C : Type} `{Scalar C}.

(** A flat index of the output either is a cell of the updated rectangle of
    some component or is none. *)
Lemma matrix_cell_cases (nao ncomp istart iend jstart jend q : Z) :
  0 <= istart -> iend <= nao -> 0 <= jstart -> jend <= nao ->
  (exists ic i j,
     0 <= ic < ncomp /\ istart <= i < iend /\ jstart <= j < jend /\
     q = ic * (nao * nao) + i * nao + j)
  \/
  (forall ic i j,
     0 <= ic < ncomp -> istart <= i < iend -> jstart <= j < jend ->
     q <> ic * (nao * nao) + i * nao + j).
Proof.
  intros Hi0 Hi1 Hj0 Hj1.
  destruct (Z_le_gt_dec nao 0) as [Hn|Hn].
  { right. intros ic i j _ Hi. lia. }
  set (N := nao * nao). assert (HN : 0 < N) by (unfold N; nia).
  set (p := q mod N).
  assert (Hq : q = q / N * N + p).
  { unfold p. pose proof (Z.div_mod q N ltac:(lia)). lia. }
  assert (Hp : p = p / nao * nao + p mod nao).
  { pose proof (Z.div_mod p nao ltac:(lia)). lia. }
  destruct (Z_le_gt_dec 0 (q / N)) as [A1|A1];
    [destruct (Z_lt_ge_dec (q / N) ncomp) as [A2|A2];
     [destruct (Z_le_gt_dec istart (p / nao)) as [A3|A3];
      [destruct (Z_lt_ge_dec (p / nao) iend) as [A4|A4];
       [destruct (Z_le_gt_dec jstart (p mod nao)) as [A5|A5];
        [destruct (Z_lt_ge_dec (p mod nao) jend) as [A6|A6]|]|]|]|]|].
  1:{ left. exists (q / N), (p / nao), (p mod nao).
      repeat split; try assumption. lia. }
  all: right; intros ic i j Hic Hi Hj E;
    pose proof (cell_bounds nao _ _ _ _ i j Hi0 Hi1 Hj0 Hj1 Hi Hj) as Hc;
    fold N in Hc;
    assert (Eic : q / N = ic)
      by (symmetry; apply (Z.div_unique q N ic (i * nao + j)); lia);
    assert (Ep : p = i * nao + j) by lia;
    assert (Ei : p / nao = i) by (rewrite Ep; apply flat_div; lia);
    assert (Ej : p mod nao = j) by (rewrite Ep; apply flat_mod; lia);
    lia.
Qed.

Lemma lk_svj_ext (eri eri' sdm : buf C) (L : locijkl) (ic r : Z) :
  (forall e, ic * (di L * dj L * (dk L * dl L)) <= e
             < (ic + 1) * (di L * dj L * (dk L * dl L)) ->
             eri e = eri' e) ->
  0 <= r < di L * dj L ->
  lk_svj eri sdm L ic r = lk_svj eri' sdm L ic r.
Proof.
  intros E Hr. unfold lk_svj, zgemv_.
  destruct (Z.leb_spec 0 r), (Z.ltb_spec r (di L * dj L)); simpl; try lia.
  f_equal. f_equal. apply zsum_ext. intros c Hc. unfold offset.
  rewrite E; [reflexivity|].
  revert Hr Hc. generalize (di L * dj L) as dij, (dk L * dl L) as dkl.
  intros dij dkl Hr Hc. nia.
Qed.

(** The loop of [CVHFrha2kl_lk_s1ij]: the [ic]-th output matrix is a
    function of the [ic]-th integral block. *)
Lemma lk_s1ij_loop_block (eri eri' sdm vj : buf C) (nao ncomp : Z)
    (L : locijkl) (ic : Z) :
  ij_in_range L nao ->
  di L = iend L - istart L -> dj L = jend L - jstart L ->
  0 <= ic < ncomp ->
  (forall e, ic * (di L * dj L * (dk L * dl L)) <= e
             < (ic + 1) * (di L * dj L * (dk L * dl L)) ->
             eri e = eri' e) ->
  forall q, ic * (nao * nao) <= q < (ic + 1) * (nao * nao) ->
    mem (for_range 0 ncomp (lk_s1ij_step eri sdm nao L) (lk_init vj)) q
    = mem (for_range 0 ncomp (lk_s1ij_step eri' sdm nao L) (lk_init vj)) q.
Proof.
  intros Hrange Edi Edj Hic E q Hq.
  destruct (lk_s1ij_loop eri sdm vj nao ncomp L Hrange Edi Edj) as [A1 A2].
  destruct (lk_s1ij_loop eri' sdm vj nao ncomp L Hrange Edi Edj) as [B1 B2].
  destruct Hrange as (Hi0 & Hi1 & Hj0 & Hj1).
  destruct (matrix_cell_cases nao ncomp (istart L) (iend L) (jstart L) (jend L)
              q Hi0 Hi1 Hj0 Hj1) as [(ic' & i & j & Hic' & Hi & Hj & ->)|Hout].
  - rewrite A1, B1 by assumption. f_equal.
    pose proof (cell_bounds nao _ _ _ _ i j Hi0 Hi1 Hj0 Hj1 Hi Hj) as Hc.
    assert (ic' = ic) by nia. subst ic'.
    apply lk_svj_ext; [exact E|].
    rewrite Edi, Edj. apply block_index_bounds; assumption.
  - rewrite A2, B2 by assumption. reflexivity.
Qed.

End Components.

Section KBuild.
Context {C : Type} `{Scalar C} `{TimeRev C}.

(** The scratch vector of one pass of [CVHFrha2kl_jk_s1il] is a function of
    the integral block at [p0213]. *)
Lemma jk_svk_ext (eri eri' sdm t t' : buf C) (dik djl P r : Z) :
  (forall e, P <= e < P + dik * djl -> eri e = eri' e) ->
  0 <= r < dik ->
  zgemv_ TRANSN dik djl Cmone (offset eri P) dik sdm Cone (NPzset0 t dik) r
  = zgemv_ TRANSN dik djl Cmone (offset eri' P) dik sdm Cone (NPzset0 t' dik) r.
Proof.
  intros E Hr. unfold zgemv_, NPzset0.
  destruct (Z.leb_spec 0 r), (Z.ltb_spec r dik); simpl; try lia.
  f_equal. f_equal. apply zsum_ext. intros c Hc. unfold offset.
  rewrite E; [reflexivity | nia].
Qed.

Lemma jk_s1il_loop_block (eri eri' sdm vk vk' : buf C) (tao : ibuf)
    (nao ncomp : Z) (L : locijkl) (ic : Z) :
  ik_in_range L nao ->
  di L = iend L - istart L -> dk L = kend L - kstart L ->
  adbak_confined CVHFtimerev_adbak_jT ->
  0 <= ic < ncomp ->
  (forall e, (ncomp + ic) * (di L * dk L * (dj L * dl L)) <= e
             < (ncomp + ic + 1) * (di L * dk L * (dj L * dl L)) ->
             eri e = eri' e) ->
  (forall q, ic * (nao * nao) <= q < (ic + 1) * (nao * nao) -> vk q = vk' q) ->
  forall q, ic * (nao * nao) <= q < (ic + 1) * (nao * nao) ->
    mem (for_range 0 ncomp (jk_s1il_step eri sdm tao nao L)
           (jk_init vk (di L * dk L * (dj L * dl L) * ncomp))) q
    = mem (for_range 0 ncomp (jk_s1il_step eri' sdm tao nao L)
             (jk_init vk' (di L * dk L * (dj L * dl L) * ncomp))) q.
Proof.
  intros (Hi0 & Hi1 & Hk0 & Hk1) Edi Edk Hconf Hic E Hvk.
  set (B := di L * dk L * (dj L * dl L)) in *.
  set (N := nao * nao) in *.
  apply (for_range_rel
           (fun k (st st' : locals C) =>
              p0213_p st = B * ncomp + k * B /\
              p0213_p st' = B * ncomp + k * B /\
              vjk_p st = k * N /\ vjk_p st' = k * N /\
              forall q, ic * N <= q < (ic + 1) * N -> mem st q = mem st' q)).
  - lia.
  - simpl. repeat split; try lia. exact Hvk.
  - intros k st st' Hk (Ep & Ep' & Ev & Ev' & IH).
    unfold jk_s1il_step. cbn [mem eri_p vjk_p tmp p0213_p].
    rewrite Ep, Ep', Ev, Ev'. fold B.
    split; [lia|]. split; [lia|]. split; [lia|]. split; [lia|].
    intros q Hq. unfold at_offset.
    destruct (Z.eq_dec k ic) as [->|Hne].
    + apply Hconf; try assumption; try lia.
      * intros r Hr. rewrite <- Edi, <- Edk in Hr.
        apply jk_svk_ext; [|exact Hr].
        intros e He. apply E. unfold B in He |- *.
        revert He. generalize (di L * dk L) as dik, (dj L * dl L) as djl.
        intros dik djl He. nia.
      * intros p Hp. unfold offset. apply IH. fold N in Hp. lia.
    + assert (Hout : ~ 0 <= q - k * N < nao * nao) by (fold N; nia).
      pose proof (fun blk mat =>
        proj2 (Hconf blk blk mat mat tao (istart L) (iend L) (kstart L) (kend L)
                 nao Hi0 Hi1 Hk0 Hk1 (fun _ _ => eq_refl) (fun _ _ => eq_refl))
              (q - k * N) Hout) as Hframe.
      rewrite !Hframe. unfold offset.
      replace (k * N + (q - k * N)) with q by lia.
      apply IH. exact Hq.
Qed.

End KBuild.

Section ComponentClaim.
Context {C real : Type} `{Scalar C} `{RsKernels C real} `{TimeRev C}.

Lemma rha2kl_jk_s1il_offdiag eri dm vk nao ncomp shls ao_loc tao
    (dm_cond : Z -> real) nbas dm_atleast :
  shls 2 > shls 3 ->
  CVHFrha2kl_jk_s1il eri dm vk nao ncomp shls ao_loc tao dm_cond nbas dm_atleast
  = let L := LOCIJKL shls ao_loc in
    Done (mem (for_range 0 ncomp
                 (jk_s1il_step eri
                    (CVHFtimerev_jT dm tao (jstart L) (jend L)
                                    (lstart L) (lend L) nao) tao nao L)
                 (jk_init
                    (CVHFrs1_jk_s1il eri dm vk nao ncomp shls ao_loc tao
                       dm_cond nbas dm_atleast)
                    (di L * dk L * (dj L * dl L) * ncomp)))).
Proof.
  intros Hgt. unfold CVHFrha2kl_jk_s1il. rewrite geb_true by lia. simpl.
  destruct (Z.eqb_spec (shls 2) (shls 3)) as [E|_]; [lia | reflexivity].
Qed.

(** C8, as the code has it.  For [shls[2] > shls[3]] and a component
    [0 <= ic < ncomp], with [B = di*dj*dk*dl]:
    - for orbital ranges of [i] and [j] inside [0..nao] ([ij_in_range]),
      [CVHFrha2kl_lk_s1ij] makes the [ic]-th [nao*nao] output matrix a
      function of the [ic]-th integral block [eri[ic*B .. (ic+1)*B)] alone;
    - for orbital ranges of [i] and [k] inside [0..nao] ([ik_in_range]),
      the time-reversal term of [CVHFrha2kl_jk_s1il] reads the [ic]-th
      block of the second copy of the integrals, which starts at
      [eri + ncomp*B]: given what the delegated [CVHFrs1_jk_s1il] left in
      the [ic]-th output matrix, that matrix is a function of
      [eri[(ncomp+ic)*B .. (ncomp+ic+1)*B)] alone, for a back-distribution
      that stays inside the matrix it is handed ([adbak_confined]).
    So no component's output matrix depends on another component's
    integral block. *)
Theorem rha2kl_component_blocks eri eri' dm vjk nao ncomp shls ao_loc tao
    (dm_cond : Z -> real) nbas dm_atleast (ic : Z) :
  let L := LOCIJKL shls ao_loc in
  let B := di L * dj L * dk L * dl L in
  let N := nao * nao in
  shls 2 > shls 3 ->
  0 <= ic < ncomp ->
  (ij_in_range L nao ->
   (forall e, ic * B <= e < (ic + 1) * B -> eri e = eri' e) ->
   exists v v',
     CVHFrha2kl_lk_s1ij eri dm vjk nao ncomp shls ao_loc tao
       dm_cond nbas dm_atleast = Done v /\
     CVHFrha2kl_lk_s1ij eri' dm vjk nao ncomp shls ao_loc tao
       dm_cond nbas dm_atleast = Done v' /\
     forall q, ic * N <= q < (ic + 1) * N -> v q = v' q)
  /\
  (ik_in_range L nao ->
   adbak_confined CVHFtimerev_adbak_jT ->
   (forall e, (ncomp + ic) * B <= e < (ncomp + ic + 1) * B -> eri e = eri' e) ->
   (forall q, ic * N <= q < (ic + 1) * N ->
      CVHFrs1_jk_s1il eri dm vjk nao ncomp shls ao_loc tao
        dm_cond nbas dm_atleast q
      = CVHFrs1_jk_s1il eri' dm vjk nao ncomp shls ao_loc tao
          dm_cond nbas dm_atleast q) ->
   exists v v',
     CVHFrha2kl_jk_s1il eri dm vjk nao ncomp shls ao_loc tao
       dm_cond nbas dm_atleast = Done v /\
     CVHFrha2kl_jk_s1il eri' dm vjk nao ncomp shls ao_loc tao
       dm_cond nbas dm_atleast = Done v' /\
     forall q, ic * N <= q < (ic + 1) * N -> v q = v' q).
Proof.
  intros L B N Hgt Hic. split.
  - intros Hrange E.
    rewrite !rha2kl_lk_s1ij_offdiag by exact Hgt. cbv zeta. fold L.
    eexists. eexists. split; [reflexivity|]. split; [reflexivity|].
    apply lk_s1ij_loop_block; try assumption; try reflexivity.
    intros e He. apply E. unfold B. 
    replace (di L * dj L * dk L * dl L) with (di L * dj L * (dk L * dl L))
      by ring.
    exact He.
  - intros Hrange Hconf E Hrs.
    rewrite !rha2kl_jk_s1il_offdiag by exact Hgt. cbv zeta. fold L.
    eexists. eexists. split; [reflexivity|]. split; [reflexivity|].
    apply jk_s1il_loop_block; try assumption; try reflexivity.
    intros e He. apply E. unfold B.
    replace (di L * dj L * dk L * dl L) with (di L * dk L * (dj L * dl L))
      by ring.
    exact He.
Qed.

End ComponentClaim.

(** The file's own transposed accumulation, used as a back-distribution,
    stays inside the matrix. *)
Lemma adbak_blockT_confined {C : Type} `{Scalar C} :
  adbak_confined
    (fun blk mat (tao : ibuf) istart iend jstart jend nao =>
       adbak_blockT mat blk nao istart iend jstart jend).
Proof.
  intros blk blk' mat mat' tao istart iend jstart jend nao
         Hi0 Hi1 Hj0 Hj1 Hblk Hmat.
  assert (Hcell : forall p,
            istart <= p / nao < iend -> jstart <= p mod nao < jend ->
            0 <= p < nao * nao).
  { intros p Hr Hc.
    pose proof (Z.div_mod p nao ltac:(lia)) as E.
    pose proof (cell_bounds nao _ _ _ _ _ _ Hi0 Hi1 Hj0 Hj1 Hr Hc). lia. }
  split.
  - intros p Hp. rewrite !adbak_blockT_rows by assumption. unfold rows_added.
    destruct (Z.leb_spec istart (p / nao)), (Z.ltb_spec (p / nao) iend),
             (Z.leb_spec jstart (p mod nao)), (Z.ltb_spec (p mod nao) jend);
      simpl; try (apply Hmat; exact Hp).
    rewrite (Hmat p Hp). f_equal. apply Hblk.
    apply block_index_bounds; lia.
  - intros p Hp. rewrite adbak_blockT_rows by assumption. unfold rows_added.
    destruct (Z.leb_spec istart (p / nao)), (Z.ltb_spec (p / nao) iend),
             (Z.leb_spec jstart (p mod nao)), (Z.ltb_spec (p mod nao) jend);
      simpl; try reflexivity.
    exfalso. apply Hp. apply Hcell; lia.
Qed.

(** ** The kernels on concrete quadruplets *)

Section Runs.
Import Plain.

Example rha2kl_lk_s1ij_run :
  read (CVHFrha2kl_lk_s1ij (of_list [3; 5]) (of_list [1; 2; 3; 4]) zeros 2 2
          (quad 0 0 1 0) ao_unit tao_self no_cond 2 0)
       [0; 1; 2; 3; 4; 5; 6; 7]
  = Some [-3; 0; 0; 0; -5; 0; 0; 0].
Proof. reflexivity. Qed.

(** A shell of one orbital and a shell of two; quadruplet [(1,0,1,0)]. *)
Example rha2kl_lk_s1ij_run_two_orbitals :
  read (CVHFrha2kl_lk_s1ij (of_list [1; 2; 3; 4])
          (of_list [1; 2; 3; 4; 5; 6; 7; 8; 9]) zeros 3 1
          (quad 1 0 1 0) ao_12 tao_self no_cond 2 0)
       [0; 1; 2; 3; 4; 5; 6; 7; 8]
  = Some [0; 0; 0; -14; 0; 0; -20; 0; 0].
Proof. reflexivity. Qed.

Example rha2kl_lk_s1ij_out_of_order :
  read (CVHFrha2kl_lk_s1ij (of_list [3; 5]) (of_list [1; 2; 3; 4]) zeros 2 2
          (quad 0 0 0 1) ao_unit tao_self no_cond 2 0)
       [0; 1; 2; 3]
  = None.
Proof. reflexivity. Qed.

Example rha2kl_jk_s1il_run :
  read (CVHFrha2kl_jk_s1il (of_list [5; 7]) (of_list [1; 2; 3; 4]) zeros 2 1
          (quad 0 0 1 0) ao_unit tao_self no_cond 2 0)
       [0; 1; 2; 3]
  = Some [10; -7; 0; 0].
Proof. reflexivity. Qed.

Example rha4_jk_s1il_run :
  read (CVHFrha4_jk_s1il (of_list [5; 9; 1; 2]) (of_list [1; 2; 3; 4]) zeros 2 2
          (quad 1 0 1 0) ao_unit tao_self no_cond 2 0)
       [0; 1; 2; 3; 4; 5; 6; 7]
  = Some [4; -15; 10; -1; 8; -27; 18; -2].
Proof. reflexivity. Qed.

Example rha4_li_s1kj_out_of_order :
  read (CVHFrha4_li_s1kj (of_list [5; 9; 1; 2]) (of_list [1; 2; 3; 4]) zeros 2 2
          (quad 0 1 1 0) ao_unit tao_self no_cond 2 0)
       [0; 1; 2; 3]
  = None.
Proof. reflexivity. Qed.

Lemma rha2kl_lk_s1ij_contraction_witness :
  let eri := of_list [1; 2; 3; 4] in
  let dm := of_list [1; 2; 3; 4; 5; 6; 7; 8; 9] in
  let shls := quad 1 0 1 0 in
  let L := LOCIJKL shls ao_12 in
  let sdm := CVHFtimerev_ijminus dm tao_self (lstart L) (lend L)
                                 (kstart L) (kend L) 3 in
  exists v,
    CVHFrha2kl_lk_s1ij eri dm zeros 3 1 shls ao_12 tao_self no_cond 2 0
    = Done v
    /\
    (forall ic i j,
       0 <= ic < 1 -> istart L <= i < iend L -> jstart L <= j < jend L ->
       v (ic * (3 * 3) + i * 3 + j)
       = Cadd (zeros (ic * (3 * 3) + i * 3 + j))
              (lk_svj eri sdm L ic ((j - jstart L) * di L + (i - istart L))))
    /\
    (forall q,
       (forall ic i j,
          0 <= ic < 1 -> istart L <= i < iend L -> jstart L <= j < jend L ->
          q <> ic * (3 * 3) + i * 3 + j) ->
       v q = zeros q)
    /\
    (forall ic r,
       0 <= r < di L * dj L ->
       lk_svj eri sdm L ic r
       = Cadd (Cmul Czero Czero)
              (Cmul Cone
                 (zsum (dk L * dl L)
                    (fun c => Cmul (eri (ic * (di L * dj L * (dk L * dl L))
                                         + (r + c * (di L * dj L))))
                                   (sdm c))))).
Proof.
  intros eri dm shls L sdm.
  apply (@rha2kl_lk_s1ij_contraction Z Z _ _ _ eri dm zeros 3 1 shls ao_12
           tao_self no_cond 2 0).
  - vm_compute. reflexivity.
  - unfold ij_in_range. vm_compute. repeat split; discriminate.
Defined.

Lemma rha_collapsed_pair_witness :
  let eri := of_list [5; 7] in
  let dm := of_list [1] in
  let shls := quad 0 0 0 0 in
  (CVHFrha2kl_lk_s1ij eri dm zeros 1 1 shls ao_unit tao_self no_cond 1 0
     = Done (CVHFrs1_lk_s1ij eri dm zeros 1 1 shls ao_unit tao_self no_cond 1 0) /\
   CVHFrha2kl_jk_s1il eri dm zeros 1 1 shls ao_unit tao_self no_cond 1 0
     = Done (CVHFrs1_jk_s1il eri dm zeros 1 1 shls ao_unit tao_self no_cond 1 0) /\
   CVHFrha2kl_li_s1kj eri dm zeros 1 1 shls ao_unit tao_self no_cond 1 0
     = Done (CVHFrs1_li_s1kj eri dm zeros 1 1 shls ao_unit tao_self no_cond 1 0) /\
   CVHFrha2kl_ji_s2kl eri dm zeros 1 1 shls ao_unit tao_self no_cond 1 0
     = Done (CVHFrs1_ji_s1kl eri dm zeros 1 1 shls ao_unit tao_self no_cond 1 0))
  /\
  (CVHFrha4_jk_s1il eri dm zeros 1 1 shls ao_unit tao_self no_cond 1 0
     = CVHFrha2kl_jk_s1il eri dm zeros 1 1 shls ao_unit tao_self no_cond 1 0 /\
   CVHFrha4_li_s1kj eri dm zeros 1 1 shls ao_unit tao_self no_cond 1 0
     = CVHFrha2kl_li_s1kj eri dm zeros 1 1 shls ao_unit tao_self no_cond 1 0).
Proof.
  intros eri dm shls.
  destruct (@rha_collapsed_pair Z Z _ _ _ eri dm zeros 1 1 shls ao_unit
              tao_self no_cond 1 0) as [Hkl Hij].
  split; [apply Hkl | apply Hij]; reflexivity.
Defined.

Lemma rha_diagonal_unscaled_witness :
  let eri := of_list [1; 1] in
  let dm := of_list [1] in
  let shls := quad 0 0 0 0 in
  CVHFrha2kl_lk_s1ij eri dm zeros 1 1 shls ao_unit tao_self no_cond 1 0
    = Done (CVHFrs1_lk_s1ij eri dm zeros 1 1 shls ao_unit tao_self no_cond 1 0) /\
  CVHFrha2kl_jk_s1il eri dm zeros 1 1 shls ao_unit tao_self no_cond 1 0
    = Done (CVHFrs1_jk_s1il eri dm zeros 1 1 shls ao_unit tao_self no_cond 1 0) /\
  CVHFrha4_jk_s1il eri dm zeros 1 1 shls ao_unit tao_self no_cond 1 0
    = Done (CVHFrs1_jk_s1il eri dm zeros 1 1 shls ao_unit tao_self no_cond 1 0).
Proof.
  intros eri dm shls.
  destruct (@rha_diagonal_unscaled Z Z _ _ _ eri dm zeros 1 1 shls ao_unit
              tao_self no_cond 1 0 eq_refl) as (Hlk & Hjk & H4).
  split; [exact Hlk|]. split; [exact Hjk|]. apply H4. reflexivity.
Defined.

(** C4 as stated fails.  Quadruplet [(0,0,0,0)] of one-orbital shells, unit
    integral and density, zero output: the kernel leaves the whole
    contribution [1] of the [CVHFrs1] kernel in [vj[0]], not one half of
    it. *)
Lemma rha2kl_diagonal_not_halved :
  let eri := of_list [1] in
  let dm := of_list [1] in
  let shls := quad 0 0 0 0 in
  shls 2 = shls 3 /\
  exists v,
    CVHFrha2kl_lk_s1ij eri dm zeros 1 1 shls ao_unit tao_self no_cond 1 0 = Done v
    /\ v 0 = 1
    /\ ~ half_of zeros
           (CVHFrs1_lk_s1ij eri dm zeros 1 1 shls ao_unit tao_self no_cond 1 0) v.
Proof.
  intros eri dm shls. split; [reflexivity|].
  eexists. split; [reflexivity|]. split; [reflexivity|].
  intros Hh. specialize (Hh 0). vm_compute in Hh. discriminate.
Qed.

Lemma rha_wrappers_witness :
  let eri := of_list [2; 3] in
  let dm := of_list [1; 2; 3; 4] in
  let shls := quad 1 0 1 0 in
  CVHFrha4_ji_s2kl eri dm zeros 2 1 shls ao_unit tao_self no_cond 2 0
    = Done (CVHFrs2ij_ji_s1kl eri dm zeros 2 1 shls ao_unit tao_self no_cond 2 0) /\
  CVHFrha4_lk_s2ij eri dm zeros 2 1 shls ao_unit tao_self no_cond 2 0
    = CVHFrha2kl_lk_s1ij eri dm zeros 2 1 shls ao_unit tao_self no_cond 2 0.
Proof.
  intros eri dm shls.
  apply (@rha_wrappers Z Z _ _ _ eri dm zeros 2 1 shls ao_unit
           tao_self no_cond 2 0); vm_compute; discriminate.
Defined.

Lemma rha_screening_unread_witness :
  let eri := of_list [2; 3] in
  let dm := of_list [1; 2; 3; 4] in
  let shls := quad 1 0 1 0 in
  let tight : Z -> Z := fun _ => 7 in
  CVHFrha2kl_jk_s1il eri dm zeros 2 1 shls ao_unit tao_self no_cond 2 0
  = CVHFrha2kl_jk_s1il eri dm zeros 2 1 shls ao_unit tao_self tight 2 9
  /\
  CVHFrha4_jk_s1il eri dm zeros 2 1 shls ao_unit tao_self no_cond 2 0
  = CVHFrha4_jk_s1il eri dm zeros 2 1 shls ao_unit tao_self tight 2 9.
Proof.
  intros eri dm shls tight.
  apply (@rha_screening_unread Z Z _ _ _ eri dm zeros 2 1 shls ao_unit
           tao_self 2 no_cond tight 0 9).
  reflexivity.
Defined.

End Runs.

Section ComponentRuns.
Import Plain.

Lemma rha2kl_component_blocks_witness :
  let eri := of_list [5; 7; 1; 2] in
  let eri' := of_list [5; 9; 1; 4] in
  let dm := of_list [1; 2; 3; 4] in
  let shls := quad 0 0 1 0 in
  (exists v v',
     CVHFrha2kl_lk_s1ij eri dm zeros 2 2 shls ao_unit tao_self no_cond 2 0
       = Done v /\
     CVHFrha2kl_lk_s1ij eri' dm zeros 2 2 shls ao_unit tao_self no_cond 2 0
       = Done v' /\
     forall q, 0 * (2 * 2) <= q < (0 + 1) * (2 * 2) -> v q = v' q)
  /\
  (exists v v',
     CVHFrha2kl_jk_s1il eri dm zeros 2 2 shls ao_unit tao_self no_cond 2 0
       = Done v /\
     CVHFrha2kl_jk_s1il eri' dm zeros 2 2 shls ao_unit tao_self no_cond 2 0
       = Done v' /\
     forall q, 0 * (2 * 2) <= q < (0 + 1) * (2 * 2) -> v q = v' q).
Proof.
  intros eri eri' dm shls.
  destruct (@rha2kl_component_blocks Z Z _ _ _ eri eri' dm zeros 2 2 shls
              ao_unit tao_self no_cond 2 0 0 eq_refl ltac:(lia)) as [A B].
  split.
  - apply A.
    + unfold ij_in_range. vm_compute. repeat split; discriminate.
    + intros e He. change (0 * 1 <= e < (0 + 1) * 1) in He.
      assert (e = 0) by lia. subst e. reflexivity.
  - apply B.
    + unfold ik_in_range. vm_compute. repeat split; discriminate.
    + exact adbak_blockT_confined.
    + intros e He. change ((2 + 0) * 1 <= e < (2 + 0 + 1) * 1) in He.
      assert (e = 2) by lia. subst e. reflexivity.
    + intros q Hq.
      assert (Hc : q = 0 \/ q = 1 \/ q = 2 \/ q = 3) by lia.
      destruct Hc as [->|[->|[->| ->]]]; reflexivity.
Defined.

(** Two components and two integral buffers, equal on the blocks of
    component [0] ([eri[0]] and, in the second copy, [eri[2]]) and different
    on those of component [1] ([eri[1]] and [eri[3]]).  The output matrices
    of component [0] are equal, those of component [1] are not. *)
Example rha2kl_component_blocks_run :
  let dm := of_list [1; 2; 3; 4] in
  let lk eri :=
    read (CVHFrha2kl_lk_s1ij (of_list eri) dm zeros 2 2 (quad 0 0 1 0)
            ao_unit tao_self no_cond 2 0) [0; 1; 2; 3; 4; 5; 6; 7] in
  let jk eri :=
    read (CVHFrha2kl_jk_s1il (of_list eri) dm zeros 2 2 (quad 0 0 1 0)
            ao_unit tao_self no_cond 2 0) [0; 1; 2; 3; 4; 5; 6; 7] in
  lk [5; 7; 1; 2] = Some [-5; 0; 0; 0; -7; 0; 0; 0] /\
  lk [5; 9; 1; 4] = Some [-5; 0; 0; 0; -9; 0; 0; 0] /\
  jk [5; 7; 1; 2] = Some [10; -1; 0; 0; 14; -2; 0; 0] /\
  jk [5; 9; 1; 4] = Some [10; -1; 0; 0; 18; -4; 0; 0].
Proof. repeat split. Qed.

(** C8 as stated fails for the K-build kernel.  One component, one-orbital
    shells, quadruplet [(0,0,1,0)]: two integral buffers equal on the
    block [eri[0..1)] of component [0] and different at [eri[1]], where the
    second copy starts, give different output matrices. *)
Lemma rha2kl_jk_s1il_reads_second_copy :
  let eri := of_list [5; 7] in
  let eri' := of_list [5; 9] in
  let dm := of_list [1; 2; 3; 4] in
  let shls := quad 0 0 1 0 in
  let L := LOCIJKL shls ao_unit in
  di L * dj L * dk L * dl L = 1 /\
  (forall e, 0 * 1 <= e < (0 + 1) * 1 -> eri e = eri' e) /\
  exists v v',
    CVHFrha2kl_jk_s1il eri dm zeros 2 1 shls ao_unit tao_self no_cond 2 0
      = Done v /\
    CVHFrha2kl_jk_s1il eri' dm zeros 2 1 shls ao_unit tao_self no_cond 2 0
      = Done v' /\
    v 1 = -7 /\ v' 1 = -9.
Proof.
  intros eri eri' dm shls L. split; [reflexivity|]. split.
  - intros e He. assert (e = 0) by lia. subst e. reflexivity.
  - eexists. eexists. split; [reflexivity|]. split; [reflexivity|].
    split; reflexivity.
Qed.

End ComponentRuns.

(** * Further properties *)

(** ** The offset table and the ranges of a quadruplet *)

Lemma ao_loc_monotone (ao_loc : ibuf) (nbas nao : Z) :
  ao_loc_ok ao_loc nbas nao ->
  forall s t, 0 <= s <= t -> t <= nbas -> ao_loc s <= ao_loc t.
Proof.
  intros (_ & _ & Hstep) s t Hst Ht.
  replace t with (s + Z.of_nat (Z.to_nat (t - s))) by lia.
  assert (Hb : s + Z.of_nat (Z.to_nat (t - s)) <= nbas) by lia.
  revert Hb. generalize (Z.to_nat (t - s)) as n.
  induction n as [|n IH]; intros Hb.
  - replace (s + Z.of_nat 0) with s by lia. lia.
  - replace (s + Z.of_nat (S n)) with (s + Z.of_nat n + 1) by lia.
    specialize (IH ltac:(lia)).
    specialize (Hstep (s + Z.of_nat n) ltac:(lia)). lia.
Qed.

(** For an offset table that rises from [0] to [nao] over [nbas] shells,
    the four orbital ranges [LOCIJKL] reads for existing shells are ranges
    of the [nao] orbitals, and the sizes [di..dl] are not negative. *)
Theorem LOCIJKL_in_range (shls ao_loc : ibuf) (nbas nao : Z) :
  ao_loc_ok ao_loc nbas nao ->
  shls_ok shls nbas ->
  let L := LOCIJKL shls ao_loc in
  quad_in_range L nao /\ loc_sizes L /\
  0 <= di L /\ 0 <= dj L /\ 0 <= dk L /\ 0 <= dl L.
Proof.
  intros Hok (H0 & H1 & H2 & H3) L.
  assert (Hr : forall s, 0 <= s < nbas ->
                 0 <= ao_loc s <= ao_loc (s + 1) /\ ao_loc (s + 1) <= nao).
  { intros s Hs. destruct Hok as (E0 & En & Hstep).
    pose proof (ao_loc_monotone ao_loc nbas nao (conj E0 (conj En Hstep))) as M.
    pose proof (M 0 s ltac:(lia) ltac:(lia)).
    pose proof (M s (s + 1) ltac:(lia) ltac:(lia)).
    pose proof (M (s + 1) nbas ltac:(lia) ltac:(lia)). lia. }
  pose proof (Hr _ H0). pose proof (Hr _ H1).
  pose proof (Hr _ H2). pose proof (Hr _ H3).
  unfold quad_in_range, loc_sizes, L, LOCIJKL. cbn.
  repeat split; lia.
Qed.

(** ** More on [adbak_blockT] *)

Section AdbakMore.
Context {C : Type} `{Scalar C}.

Lemma adbak_blockT_empty_eq (a blk : buf C) (n istart iend jstart jend : Z) :
  iend <= istart \/ jend <= jstart ->
  adbak_blockT a blk n istart iend jstart jend = a.
Proof.
  intros [Hi|Hj]; unfold adbak_blockT.
  - rewrite for_range_empty by lia. reflexivity.
  - destruct (Z_le_gt_dec istart iend) as [Hle|Hgt].
    2:{ rewrite for_range_empty by lia. reflexivity. }
    apply (for_range_inv (fun _ (st : buf C * Z) => fst st = a));
      [exact Hle | reflexivity |].
    intros i [mem0 ap] _ E. simpl in E. subst mem0. simpl.
    apply for_range_empty. lia.
Qed.

(** An empty row range or an empty column range: [adbak_blockT] gives the
    array back as it received it, whatever [n] and the block are. *)
Theorem adbak_blockT_empty (a blk : buf C) (n istart iend jstart jend : Z) :
  iend <= istart \/ jend <= jstart ->
  adbak_blockT a blk n istart iend jstart jend = a.
Proof. exact (adbak_blockT_empty_eq a blk n istart iend jstart jend). Qed.

Lemma adbak_blockT_ext (a a' blk blk' : buf C) (n istart iend jstart jend : Z) :
  (forall r, 0 <= r < (iend - istart) * (jend - jstart) -> blk r = blk' r) ->
  (forall q, a q = a' q) ->
  forall q, adbak_blockT a blk n istart iend jstart jend q
            = adbak_blockT a' blk' n istart iend jstart jend q.
Proof.
  intros Hblk Ha. unfold adbak_blockT.
  destruct (Z_le_gt_dec istart iend) as [Hle|Hgt].
  2:{ rewrite !for_range_empty by lia. exact Ha. }
  set (m := iend - istart) in *.
  assert (R :
    (fun _ (s t : buf C * Z) => snd s = snd t /\ forall q, fst s q = fst t q)
      iend
      (for_range istart iend
         (fun i (st : buf C * Z) =>
            let '(mem, ap) := st in
            (for_range jstart jend
               (fun j mem => store mem (ap + j)
                  (Cadd (mem (ap + j)) (blk ((j - jstart) * m + (i - istart)))))
               mem, ap + n))
         (a, istart * n))
      (for_range istart iend
         (fun i (st : buf C * Z) =>
            let '(mem, ap) := st in
            (for_range jstart jend
               (fun j mem => store mem (ap + j)
                  (Cadd (mem (ap + j)) (blk' ((j - jstart) * m + (i - istart)))))
               mem, ap + n))
         (a', istart * n))).
  { apply (for_range_rel
             (fun _ (s t : buf C * Z) =>
                snd s = snd t /\ forall q, fst s q = fst t q));
      [exact Hle | split; [reflexivity | exact Ha] |].
    intros i [mem0 ap] [mem1 ap'] Hi [Ep Em]. simpl in Ep, Em. subst ap'.
    split; [reflexivity|]. intros q. simpl fst.
    rewrite !adbak_row. rewrite Em.
    destruct (Z.leb_spec (ap + jstart) q), (Z.ltb_spec q (ap + jend));
      simpl; try reflexivity.
    f_equal. apply Hblk. unfold m in *. nia. }
  destruct R as [_ R]. exact R.
Qed.

(** [adbak_blockT] reads the first [(iend-istart)*(jend-jstart)] entries of
    the block and nothing beyond: two blocks equal there give the same
    array, whatever [n] is. *)
Theorem adbak_blockT_reads_block (a blk blk' : buf C)
    (n istart iend jstart jend : Z) :
  (forall r, 0 <= r < (iend - istart) * (jend - jstart) -> blk r = blk' r) ->
  forall q, adbak_blockT a blk n istart iend jstart jend q
            = adbak_blockT a blk' n istart iend jstart jend q.
Proof.
  intros Hblk. apply adbak_blockT_ext; [exact Hblk | reflexivity].
Qed.

(** Two back-distributions into rectangles of one [n]-column matrix: a cell
    of both rectangles holds its old value plus the entry of the first
    block plus the entry of the second, in this order; a cell of the first
    rectangle outside the second holds the old value plus the first entry
    only. *)
Theorem adbak_blockT_twice (a blk1 blk2 : buf C)
    (n i1 i2 j1 j2 i1' i2' j1' j2' i j : Z) :
  0 <= j1 -> j2 <= n -> 0 <= j1' -> j2' <= n ->
  i1 <= i < i2 -> j1 <= j < j2 ->
  let once := adbak_blockT a blk1 n i1 i2 j1 j2 in
  let twice := adbak_blockT once blk2 n i1' i2' j1' j2' in
  (i1' <= i < i2' -> j1' <= j < j2' ->
   twice (i * n + j)
   = Cadd (Cadd (a (i * n + j)) (blk1 ((j - j1) * (i2 - i1) + (i - i1))))
          (blk2 ((j - j1') * (i2' - i1') + (i - i1'))))
  /\
  (~ (i1' <= i < i2' /\ j1' <= j < j2') ->
   twice (i * n + j)
   = Cadd (a (i * n + j)) (blk1 ((j - j1) * (i2 - i1) + (i - i1)))).
Proof.
  intros H1 H2 H1' H2' Hi Hj once twice.
  assert (Eonce : once (i * n + j)
                  = Cadd (a (i * n + j)) (blk1 ((j - j1) * (i2 - i1) + (i - i1)))).
  { unfold once. rewrite adbak_blockT_rows by assumption.
    apply rows_added_inside; assumption. }
  split.
  - intros Hi' Hj'. unfold twice. rewrite adbak_blockT_rows by assumption.
    rewrite rows_added_inside by assumption. rewrite Eonce. reflexivity.
  - intros Hout. unfold twice. rewrite adbak_blockT_rows by assumption.
    rewrite rows_added_outside; try assumption.
    intros i' j' Hi' Hj' E. apply Hout.
    assert (i' = i /\ j' = j) as [-> ->]; [|split; assumption].
    assert (0 < n) by lia.
    assert (i = i') by nia. subst i'. split; [reflexivity | lia].
Qed.

End AdbakMore.

(** ** More on the J-build kernel *)

Section JBuildMore.
Context {C : Type} `{Scalar C}.

(** The scratch vector is zeroed before [zgemv_] accumulates into it: what
    it held on entry does not reach the output. *)
Lemma lk_s1ij_loop_scratch (eri sdm vj t t' : buf C) (nao ncomp : Z)
    (L : locijkl) :
  di L = iend L - istart L -> dj L = jend L - jstart L ->
  forall q,
    mem (for_range 0 ncomp (lk_s1ij_step eri sdm nao L)
           {| mem := vj; eri_p := 0; p0213_p := 0; vjk_p := 0; tmp := t |}) q
    = mem (for_range 0 ncomp (lk_s1ij_step eri sdm nao L)
             {| mem := vj; eri_p := 0; p0213_p := 0; vjk_p := 0; tmp := t' |}) q.
Proof.
  intros Edi Edj.
  destruct (Z_le_gt_dec 0 ncomp) as [Hle|Hgt].
  2:{ rewrite !for_range_empty by lia. reflexivity. }
  apply (for_range_rel
           (fun _ (a b : locals C) =>
              eri_p a = eri_p b /\ vjk_p a = vjk_p b /\
              forall q, mem a q = mem b q)); [exact Hle | | ].
  - simpl. repeat split; reflexivity.
  - intros k a b Hk (Ee & Ev & Em).
    unfold lk_s1ij_step. cbn [mem eri_p vjk_p tmp p0213_p].
    rewrite Ee, Ev. split; [reflexivity|]. split; [reflexivity|].
    intros q. unfold at_offset. apply adbak_blockT_ext.
    + intros r Hr. rewrite <- Edi, <- Edj in Hr.
      unfold zgemv_, NPzset0.
      destruct (Z.leb_spec 0 r), (Z.ltb_spec r (di L * dj L)); simpl; try lia.
      reflexivity.
    + intros p. unfold offset. apply Em.
Qed.

End JBuildMore.

Section JBuildMoreKernels.
Context {C real : Type} `{RsKernels C real} `{TimeRev C}.

(** [CVHFrha2kl_lk_s1ij] never reads its automatic arrays before writing
    them: run with two different contents of uninitialised storage, it
    leaves the same output. *)
Theorem rha2kl_lk_s1ij_scratch_unread
    (add mul : C -> C -> C) (zero one mone : C) (g g' : Z -> C)
    eri dm vj nao ncomp shls ao_loc tao (dm_cond : Z -> real) nbas dm_atleast :
  shls 2 >= shls 3 ->
  exists v v',
    @CVHFrha2kl_lk_s1ij C real (Build_Scalar C add mul zero one mone g) _ _
      eri dm vj nao ncomp shls ao_loc tao dm_cond nbas dm_atleast = Done v /\
    @CVHFrha2kl_lk_s1ij C real (Build_Scalar C add mul zero one mone g') _ _
      eri dm vj nao ncomp shls ao_loc tao dm_cond nbas dm_atleast = Done v' /\
    forall q, v q = v' q.
Proof.
  intros Hge. unfold CVHFrha2kl_lk_s1ij. rewrite !geb_true by lia. simpl assert.
  destruct (shls 2 =? shls 3).
  - eexists. eexists. split; [reflexivity|]. split; [reflexivity|]. reflexivity.
  - eexists. eexists. split; [reflexivity|]. split; [reflexivity|].
    cbv zeta. intros q.
    exact (@lk_s1ij_loop_scratch C (Build_Scalar C add mul zero one mone g)
             eri _ vj g g' nao ncomp (LOCIJKL shls ao_loc) eq_refl eq_refl q).
Qed.

End JBuildMoreKernels.

Section NoComponents.
Context {C real : Type} `{Scalar C} `{RsKernels C real} `{TimeRev C}.

(** With no component to process ([ncomp <= 0]) the kernels of this file add
    nothing of their own: for a canonically ordered quadruplet the result of
    [CVHFrha2kl_lk_s1ij] with [shls[2] > shls[3]] is [vj] itself, and the
    K-build kernels return what the delegated [CVHFrs1] kernel left. *)
Theorem rha_no_components eri dm vjk nao ncomp shls ao_loc tao
    (dm_cond : Z -> real) nbas dm_atleast :
  ncomp <= 0 ->
  shls 0 >= shls 1 -> shls 2 >= shls 3 ->
  (shls 2 > shls 3 ->
   CVHFrha2kl_lk_s1ij eri dm vjk nao ncomp shls ao_loc tao dm_cond nbas dm_atleast
   = Done vjk /\
   CVHFrha4_lk_s2ij eri dm vjk nao ncomp shls ao_loc tao dm_cond nbas dm_atleast
   = Done vjk)
  /\
  CVHFrha2kl_jk_s1il eri dm vjk nao ncomp shls ao_loc tao dm_cond nbas dm_atleast
  = Done (CVHFrs1_jk_s1il eri dm vjk nao ncomp shls ao_loc tao
            dm_cond nbas dm_atleast)
  /\
  CVHFrha2kl_li_s1kj eri dm vjk nao ncomp shls ao_loc tao dm_cond nbas dm_atleast
  = Done (CVHFrs1_li_s1kj eri dm vjk nao ncomp shls ao_loc tao
            dm_cond nbas dm_atleast)
  /\
  CVHFrha4_jk_s1il eri dm vjk nao ncomp shls ao_loc tao dm_cond nbas dm_atleast
  = Done (CVHFrs1_jk_s1il eri dm vjk nao ncomp shls ao_loc tao
            dm_cond nbas dm_atleast)
  /\
  CVHFrha4_li_s1kj eri dm vjk nao ncomp shls ao_loc tao dm_cond nbas dm_atleast
  = Done (CVHFrs1_li_s1kj eri dm vjk nao ncomp shls ao_loc tao
            dm_cond nbas dm_atleast).
Proof.
  intros Hn H01 H23.
  assert (Elk : shls 2 > shls 3 ->
    CVHFrha2kl_lk_s1ij eri dm vjk nao ncomp shls ao_loc tao dm_cond nbas dm_atleast
    = Done vjk).
  { intros Hgt. rewrite rha2kl_lk_s1ij_offdiag by exact Hgt. cbv zeta.
    rewrite for_range_empty by lia. reflexivity. }
  assert (Ejk :
    CVHFrha2kl_jk_s1il eri dm vjk nao ncomp shls ao_loc tao dm_cond nbas dm_atleast
    = Done (CVHFrs1_jk_s1il eri dm vjk nao ncomp shls ao_loc tao
              dm_cond nbas dm_atleast)).
  { unfold CVHFrha2kl_jk_s1il. rewrite geb_true by lia. simpl assert.
    destruct (shls 2 =? shls 3); [reflexivity|].
    cbv zeta. rewrite for_range_empty by lia. reflexivity. }
  assert (Eli :
    CVHFrha2kl_li_s1kj eri dm vjk nao ncomp shls ao_loc tao dm_cond nbas dm_atleast
    = Done (CVHFrs1_li_s1kj eri dm vjk nao ncomp shls ao_loc tao
              dm_cond nbas dm_atleast)).
  { unfold CVHFrha2kl_li_s1kj. rewrite geb_true by lia. simpl assert.
    destruct (shls 2 =? shls 3); [reflexivity|].
    cbv zeta. rewrite for_range_empty by lia. reflexivity. }
  split; [|split; [exact Ejk | split; [exact Eli | split]]].
  - intros Hgt. split; [exact (Elk Hgt)|].
    unfold CVHFrha4_lk_s2ij. rewrite !geb_true by lia. simpl assert.
    exact (Elk Hgt).
  - unfold CVHFrha4_jk_s1il. rewrite !geb_true by lia. simpl assert.
    rewrite Ejk. simpl and_then.
    destruct (shls 0 =? shls 1); [reflexivity|]. cbv zeta.
    rewrite for_range_empty by lia. cbn [mem].
    destruct (shls 2 =? shls 3); [reflexivity|].
    rewrite for_range_empty by lia. reflexivity.
  - unfold CVHFrha4_li_s1kj. rewrite !geb_true by lia. simpl assert.
    rewrite Eli. simpl and_then.
    destruct (shls 0 =? shls 1); [reflexivity|]. cbv zeta.
    rewrite for_range_empty by lia. cbn [mem].
    destruct (shls 2 =? shls 3); [reflexivity|].
    rewrite for_range_empty by lia. reflexivity.
Qed.

(** Two calls of [CVHFrha2kl_lk_s1ij] in a row, the second on the output of
    the first and for any second quadruplet, integrals and density: an
    output cell that lies in the [(i,j)] block of both quadruplets holds its
    old value plus the contribution of the first call plus that of the
    second. *)
Theorem rha2kl_lk_s1ij_twice eri1 dm1 eri2 dm2 vj nao ncomp shls shls'
    ao_loc tao (dm_cond : Z -> real) nbas dm_atleast (ic i j : Z) :
  let L := LOCIJKL shls ao_loc in
  let L' := LOCIJKL shls' ao_loc in
  let sdm1 := CVHFtimerev_ijminus dm1 tao (lstart L) (lend L)
                                  (kstart L) (kend L) nao in
  let sdm2 := CVHFtimerev_ijminus dm2 tao (lstart L') (lend L')
                                  (kstart L') (kend L') nao in
  shls 2 > shls 3 -> shls' 2 > shls' 3 ->
  ij_in_range L nao -> ij_in_range L' nao ->
  0 <= ic < ncomp ->
  istart L <= i < iend L -> jstart L <= j < jend L ->
  istart L' <= i < iend L' -> jstart L' <= j < jend L' ->
  exists v1 v2,
    CVHFrha2kl_lk_s1ij eri1 dm1 vj nao ncomp shls ao_loc tao
      dm_cond nbas dm_atleast = Done v1 /\
    CVHFrha2kl_lk_s1ij eri2 dm2 v1 nao ncomp shls' ao_loc tao
      dm_cond nbas dm_atleast = Done v2 /\
    v2 (ic * (nao * nao) + i * nao + j)
    = Cadd (Cadd (vj (ic * (nao * nao) + i * nao + j))
                 (lk_svj eri1 sdm1 L ic
                    ((j - jstart L) * di L + (i - istart L))))
           (lk_svj eri2 sdm2 L' ic
              ((j - jstart L') * di L' + (i - istart L'))).
Proof.
  intros L L' sdm1 sdm2 Hgt Hgt' Hr Hr' Hic Hi Hj Hi' Hj'.
  rewrite rha2kl_lk_s1ij_offdiag by exact Hgt. cbv zeta. fold L. fold sdm1.
  eexists. eexists. split; [reflexivity|].
  rewrite rha2kl_lk_s1ij_offdiag by exact Hgt'. cbv zeta. fold L'. fold sdm2.
  split; [reflexivity|].
  destruct (lk_s1ij_loop eri1 sdm1 vj nao ncomp L Hr eq_refl eq_refl)
    as [A _].
  destruct (lk_s1ij_loop eri2 sdm2
              (mem (for_range 0 ncomp (lk_s1ij_step eri1 sdm1 nao L) (lk_init vj)))
              nao ncomp L' Hr' eq_refl eq_refl) as [B _].
  rewrite B by assumption. rewrite A by assumption. reflexivity.
Qed.

End NoComponents.

(** ** Loops over the components with a back-distribution of time_rev.h *)

Section ComponentLoops.
Context {C : Type} `{Scalar C}.

Lemma at_offset_confined_frame (f : timerev_adbak C) (blk mat : buf C)
    (tao : ibuf) (r0 r1 c0 c1 nao k q : Z) :
  adbak_confined f ->
  0 <= r0 -> r1 <= nao -> 0 <= c0 -> c1 <= nao ->
  ~ (k <= q < k + nao * nao) ->
  at_offset k (fun a => f blk a tao r0 r1 c0 c1 nao) mat q = mat q.
Proof.
  intros Hconf Hr0 Hr1 Hc0 Hc1 Hq. unfold at_offset.
  destruct (Hconf blk blk (offset mat k) (offset mat k) tao r0 r1 c0 c1 nao
              Hr0 Hr1 Hc0 Hc1 (fun _ _ => eq_refl) (fun _ _ => eq_refl))
    as [_ F].
  rewrite F by lia. unfold offset. f_equal. lia.
Qed.

Lemma at_offset_confined_block (f : timerev_adbak C) (blk blk' mat mat' : buf C)
    (tao : ibuf) (r0 r1 c0 c1 nao k : Z) :
  adbak_confined f ->
  0 <= r0 -> r1 <= nao -> 0 <= c0 -> c1 <= nao ->
  (forall r, 0 <= r < (r1 - r0) * (c1 - c0) -> blk r = blk' r) ->
  (forall p, k <= p < k + nao * nao -> mat p = mat' p) ->
  forall q, k <= q < k + nao * nao ->
    at_offset k (fun a => f blk a tao r0 r1 c0 c1 nao) mat q
    = at_offset k (fun a => f blk' a tao r0 r1 c0 c1 nao) mat' q.
Proof.
  intros Hconf Hr0 Hr1 Hc0 Hc1 Hblk Hmat q Hq. unfold at_offset.
  apply Hconf; try assumption; try lia.
  intros p Hp. unfold offset. apply Hmat. lia.
Qed.

(** A loop whose pass [k] hands the [k]-th output matrix and a block to a
    confined back-distribution leaves alone what lies outside the [ncomp]
    matrices. *)
Lemma component_loop_frame (step : Z -> locals C -> locals C)
    (f : timerev_adbak C) (blkof : locals C -> buf C) (tao : ibuf)
    (r0 r1 c0 c1 nao ncomp : Z) (st0 : locals C) :
  adbak_confined f ->
  0 <= r0 -> r1 <= nao -> 0 <= c0 -> c1 <= nao ->
  (forall k st, vjk_p (step k st) = vjk_p st + nao * nao) ->
  (forall k st q,
     mem (step k st) q
     = at_offset (vjk_p st) (fun a => f (blkof st) a tao r0 r1 c0 c1 nao)
                 (mem st) q) ->
  forall q, ~ (vjk_p st0 <= q < vjk_p st0 + ncomp * (nao * nao)) ->
    mem (for_range 0 ncomp step st0) q = mem st0 q.
Proof.
  intros Hconf Hr0 Hr1 Hc0 Hc1 Hv Hm q Hq.
  destruct (Z_le_gt_dec 0 ncomp) as [Hle|Hgt].
  2:{ rewrite for_range_empty by lia. reflexivity. }
  assert (Inv :
    (fun k (st : locals C) =>
       vjk_p st = vjk_p st0 + k * (nao * nao) /\ mem st q = mem st0 q)
      ncomp (for_range 0 ncomp step st0)).
  { apply for_range_inv; [exact Hle | split; [lia | reflexivity] |].
    intros k st Hk [Ev Em]. split.
    - rewrite Hv, Ev. lia.
    - rewrite Hm. rewrite at_offset_confined_frame; try assumption.
      rewrite Ev. nia. }
  apply Inv.
Qed.

(** Two such loops, pass by pass: when at pass [ic] the blocks agree on the
    entries the back-distribution reads, and the [ic]-th output matrices
    agree on entry, these matrices agree on exit. *)
Lemma component_loop_block (step step' : Z -> locals C -> locals C)
    (f : timerev_adbak C) (blkof blkof' : locals C -> buf C) (tao : ibuf)
    (r0 r1 c0 c1 nao ncomp ic : Z)
    (J : Z -> locals C -> locals C -> Prop) (st0 st0' : locals C) :
  adbak_confined f ->
  0 <= r0 -> r1 <= nao -> 0 <= c0 -> c1 <= nao ->
  (forall k st, vjk_p (step k st) = vjk_p st + nao * nao) ->
  (forall k st, vjk_p (step' k st) = vjk_p st + nao * nao) ->
  (forall k st q,
     mem (step k st) q
     = at_offset (vjk_p st) (fun a => f (blkof st) a tao r0 r1 c0 c1 nao)
                 (mem st) q) ->
  (forall k st q,
     mem (step' k st) q
     = at_offset (vjk_p st) (fun a => f (blkof' st) a tao r0 r1 c0 c1 nao)
                 (mem st) q) ->
  0 <= ic < ncomp ->
  vjk_p st0 = 0 -> vjk_p st0' = 0 ->
  J 0 st0 st0' ->
  (forall k a b, 0 <= k < ncomp -> J k a b -> J (k + 1) (step k a) (step' k b)) ->
  (forall a b r, J ic a b -> 0 <= r < (r1 - r0) * (c1 - c0) ->
     blkof a r = blkof' b r) ->
  (forall q, ic * (nao * nao) <= q < (ic + 1) * (nao * nao) ->
     mem st0 q = mem st0' q) ->
  forall q, ic * (nao * nao) <= q < (ic + 1) * (nao * nao) ->
    mem (for_range 0 ncomp step st0) q = mem (for_range 0 ncomp step' st0') q.
Proof.
  intros Hconf Hr0 Hr1 Hc0 Hc1 Hv Hv' Hm Hm' Hic E0 E0' J0 Jstep Jblk Hmem.
  set (N := nao * nao) in *.
  apply (for_range_rel
           (fun k (a b : locals C) =>
              J k a b /\ vjk_p a = k * N /\ vjk_p b = k * N /\
              forall q, ic * N <= q < (ic + 1) * N -> mem a q = mem b q)).
  - lia.
  - repeat split; try assumption; lia.
  - intros k a b Hk (Jk & Ea & Eb & Em).
    split; [apply Jstep; assumption|].
    split; [rewrite Hv, Ea; lia|]. split; [rewrite Hv', Eb; lia|].
    intros q Hq. rewrite Hm, Hm', Ea, Eb.
    destruct (Z.eq_dec k ic) as [->|Hne].
    + apply at_offset_confined_block; try assumption.
      * intros r Hr. apply Jblk; assumption.
      * intros p Hp. apply Em. fold N in Hp. lia.
      * fold N. lia.
    + rewrite !at_offset_confined_frame; try assumption;
        try (fold N; nia).
      apply Em. exact Hq.
Qed.

(** The scratch vector after [NPzset0] and one [zgemv_] is a function of the
    integral block the call reads. *)
Lemma zgemv_n_zeroed_ext (eri eri' sdm t t' : buf C) (alpha : C)
    (m n P r : Z) :
  (forall e, P <= e < P + m * n -> eri e = eri' e) ->
  0 <= r < m ->
  zgemv_ TRANSN m n alpha (offset eri P) m sdm Cone (NPzset0 t m) r
  = zgemv_ TRANSN m n alpha (offset eri' P) m sdm Cone (NPzset0 t' m) r.
Proof.
  intros E Hr. unfold zgemv_, NPzset0.
  destruct (Z.leb_spec 0 r), (Z.ltb_spec r m); simpl; try lia.
  f_equal. f_equal. apply zsum_ext. intros c Hc. unfold offset.
  rewrite E; [reflexivity | nia].
Qed.

Lemma zgemv_t_zeroed_ext (eri eri' sdm t t' : buf C) (alpha : C)
    (m n P r : Z) :
  (forall e, P <= e < P + m * n -> eri e = eri' e) ->
  0 <= r < n ->
  zgemv_ TRANST m n alpha (offset eri P) m sdm Cone (NPzset0 t n) r
  = zgemv_ TRANST m n alpha (offset eri' P) m sdm Cone (NPzset0 t' n) r.
Proof.
  intros E Hr. unfold zgemv_, NPzset0.
  destruct (Z.leb_spec 0 r), (Z.ltb_spec r n); simpl; try lia.
  f_equal. f_equal. apply zsum_ext. intros c Hc. unfold offset.
  rewrite E; [reflexivity | nia].
Qed.

End ComponentLoops.

(** ** The K-build kernels: what they leave alone *)

Section KBuildFrame.
Context {C real : Type} `{Scalar C} `{RsKernels C real} `{TimeRev C}.

Lemma rha2kl_jk_s1il_frame eri dm vk nao ncomp shls ao_loc tao
    (dm_cond : Z -> real) nbas dm_atleast :
  shls 2 >= shls 3 ->
  quad_in_range (LOCIJKL shls ao_loc) nao ->
  adbak_confined CVHFtimerev_adbak_jT ->
  exists v,
    CVHFrha2kl_jk_s1il eri dm vk nao ncomp shls ao_loc tao
      dm_cond nbas dm_atleast = Done v /\
    forall q, ~ (0 <= q < ncomp * (nao * nao)) ->
      v q = CVHFrs1_jk_s1il eri dm vk nao ncomp shls ao_loc tao
              dm_cond nbas dm_atleast q.
Proof.
  intros Hge (Hi & Hj & Hk & Hl) Hconf.
  unfold CVHFrha2kl_jk_s1il. rewrite geb_true by lia. simpl assert.
  destruct (shls 2 =? shls 3).
  - eexists. split; [reflexivity|]. reflexivity.
  - cbv zeta. eexists. split; [reflexivity|]. intros q Hq.
    set (L := LOCIJKL shls ao_loc) in *.
    set (sdm := CVHFtimerev_jT dm tao (jstart L) (jend L) (lstart L) (lend L) nao).
    apply (component_loop_frame (jk_s1il_step eri sdm tao nao L)
             CVHFtimerev_adbak_jT
             (fun st =>
                zgemv_ TRANSN (di L * dk L) (dj L * dl L) Cmone
                       (offset eri (p0213_p st)) (di L * dk L) sdm Cone
                       (NPzset0 (tmp st) (di L * dk L)))
             tao (istart L) (iend L) (kstart L) (kend L) nao ncomp
             (jk_init (CVHFrs1_jk_s1il eri dm vk nao ncomp shls ao_loc tao
                         dm_cond nbas dm_atleast)
                      (di L * dk L * (dj L * dl L) * ncomp)));
      try assumption; try lia; try (intros; reflexivity).
Qed.

Lemma rha2kl_li_s1kj_frame eri dm vk nao ncomp shls ao_loc tao
    (dm_cond : Z -> real) nbas dm_atleast :
  shls 2 >= shls 3 ->
  quad_in_range (LOCIJKL shls ao_loc) nao ->
  adbak_confined CVHFtimerev_adbak_i ->
  exists v,
    CVHFrha2kl_li_s1kj eri dm vk nao ncomp shls ao_loc tao
      dm_cond nbas dm_atleast = Done v /\
    forall q, ~ (0 <= q < ncomp * (nao * nao)) ->
      v q = CVHFrs1_li_s1kj eri dm vk nao ncomp shls ao_loc tao
              dm_cond nbas dm_atleast q.
Proof.
  intros Hge (Hi & Hj & Hk & Hl) Hconf.
  unfold CVHFrha2kl_li_s1kj. rewrite geb_true by lia. simpl assert.
  destruct (shls 2 =? shls 3).
  - eexists. split; [reflexivity|]. reflexivity.
  - cbv zeta. eexists. split; [reflexivity|]. intros q Hq.
    set (L := LOCIJKL shls ao_loc) in *.
    set (sdm := CVHFtimerev_i dm tao (kstart L) (kend L) (istart L) (iend L) nao).
    apply (component_loop_frame (li_s1kj_step eri sdm tao nao L)
             CVHFtimerev_adbak_i
             (fun st =>
                zgemv_ TRANST (di L * dk L) (dj L * dl L) Cmone
                       (offset eri (p0213_p st)) (di L * dk L) sdm Cone
                       (NPzset0 (tmp st) (dl L * dj L)))
             tao (lstart L) (lend L) (jstart L) (jend L) nao ncomp
             (jk_init (CVHFrs1_li_s1kj eri dm vk nao ncomp shls ao_loc tao
                         dm_cond nbas dm_atleast)
                      (di L * dk L * (dj L * dl L) * ncomp)));
      try assumption; try lia; try (intros; reflexivity).
Qed.

(** For a back-distribution that stays inside the matrix it is handed,
    [CVHFrha2kl_jk_s1il] and [CVHFrha2kl_li_s1kj] write nothing outside the
    [ncomp] output matrices [vk[0 .. ncomp*nao*nao)]: there the output is
    what the delegated [CVHFrs1] kernel left. *)
Theorem rha2kl_kbuild_frame eri dm vk nao ncomp shls ao_loc tao
    (dm_cond : Z -> real) nbas dm_atleast :
  shls 2 >= shls 3 ->
  quad_in_range (LOCIJKL shls ao_loc) nao ->
  adbak_confined CVHFtimerev_adbak_jT ->
  adbak_confined CVHFtimerev_adbak_i ->
  (exists v,
     CVHFrha2kl_jk_s1il eri dm vk nao ncomp shls ao_loc tao
       dm_cond nbas dm_atleast = Done v /\
     forall q, ~ (0 <= q < ncomp * (nao * nao)) ->
       v q = CVHFrs1_jk_s1il eri dm vk nao ncomp shls ao_loc tao
               dm_cond nbas dm_atleast q)
  /\
  (exists v,
     CVHFrha2kl_li_s1kj eri dm vk nao ncomp shls ao_loc tao
       dm_cond nbas dm_atleast = Done v /\
     forall q, ~ (0 <= q < ncomp * (nao * nao)) ->
       v q = CVHFrs1_li_s1kj eri dm vk nao ncomp shls ao_loc tao
               dm_cond nbas dm_atleast q).
Proof.
  intros Hge Hr HjT Hi. split.
  - apply rha2kl_jk_s1il_frame; assumption.
  - apply rha2kl_li_s1kj_frame; assumption.
Qed.

Lemma rha4_jk_s1il_unfold eri dm vk nao ncomp shls ao_loc tao
    (dm_cond : Z -> real) nbas dm_atleast (vk1 : buf C) :
  shls 0 >= shls 1 -> shls 2 >= shls 3 ->
  CVHFrha2kl_jk_s1il eri dm vk nao ncomp shls ao_loc tao
    dm_cond nbas dm_atleast = Done vk1 ->
  CVHFrha4_jk_s1il eri dm vk nao ncomp shls ao_loc tao dm_cond nbas dm_atleast
  = if shls 0 =? shls 1 then Done vk1
    else
      let L := LOCIJKL shls ao_loc in
      let st1 :=
        for_range 0 ncomp
          (rha4_jk_step1 eri
             (CVHFtimerev_iT dm tao (istart L) (iend L) (kstart L) (kend L) nao)
             tao nao L)
          (jk_init vk1 (di L * dk L * (dj L * dl L) * ncomp)) in
      if shls 2 =? shls 3 then Done (mem st1)
      else
        Done (mem (for_range 0 ncomp
                     (rha4_jk_step2 eri
                        (CVHFtimerev_blockT dm tao (istart L) (iend L)
                                            (lstart L) (lend L) nao)
                        tao nao L)
                     (rha4_second st1))).
Proof.
  intros H01 H23 E. unfold CVHFrha4_jk_s1il.
  rewrite !geb_true by lia. simpl assert. rewrite E. reflexivity.
Qed.

Lemma rha4_li_s1kj_unfold eri dm vk nao ncomp shls ao_loc tao
    (dm_cond : Z -> real) nbas dm_atleast (vk1 : buf C) :
  shls 0 >= shls 1 -> shls 2 >= shls 3 ->
  CVHFrha2kl_li_s1kj eri dm vk nao ncomp shls ao_loc tao
    dm_cond nbas dm_atleast = Done vk1 ->
  CVHFrha4_li_s1kj eri dm vk nao ncomp shls ao_loc tao dm_cond nbas dm_atleast
  = if shls 0 =? shls 1 then Done vk1
    else
      let L := LOCIJKL shls ao_loc in
      let st1 :=
        for_range 0 ncomp
          (rha4_li_step1 eri
             (CVHFtimerev_j dm tao (lstart L) (lend L) (jstart L) (jend L) nao)
             tao nao L)
          (jk_init vk1 (di L * dk L * (dj L * dl L) * ncomp)) in
      if shls 2 =? shls 3 then Done (mem st1)
      else
        Done (mem (for_range 0 ncomp
                     (rha4_li_step2 eri
                        (CVHFtimerev_block dm tao (kstart L) (kend L)
                                           (jstart L) (jend L) nao)
                        tao nao L)
                     (rha4_second st1))).
Proof.
  intros H01 H23 E. unfold CVHFrha4_li_s1kj.
  rewrite !geb_true by lia. simpl assert. rewrite E. reflexivity.
Qed.

End KBuildFrame.

Section KBuildFrame4.
Context {C real : Type} `{Scalar C} `{RsKernels C real} `{TimeRev C}.

Lemma rha4_jk_loop1_frame (eri sdm : buf C) tao nao ncomp (L : locijkl)
    (st0 : locals C) :
  quad_in_range L nao -> adbak_confined CVHFtimerev_adbak_iT ->
  vjk_p st0 = 0 ->
  forall q, ~ (0 <= q < ncomp * (nao * nao)) ->
    mem (for_range 0 ncomp (rha4_jk_step1 eri sdm tao nao L) st0) q = mem st0 q.
Proof.
  intros (Hi & Hj & Hk & Hl) Hconf E0 q Hq.
  apply (component_loop_frame (rha4_jk_step1 eri sdm tao nao L)
           CVHFtimerev_adbak_iT (rha4_jk_svk1 eri sdm L)
           tao (jstart L) (jend L) (lstart L) (lend L) nao ncomp st0);
    try assumption; try lia; try (intros; reflexivity).
Qed.

Lemma rha4_jk_loop2_frame (eri sdm : buf C) tao nao ncomp (L : locijkl)
    (st0 : locals C) :
  quad_in_range L nao -> adbak_confined CVHFtimerev_adbak_blockT ->
  vjk_p st0 = 0 ->
  forall q, ~ (0 <= q < ncomp * (nao * nao)) ->
    mem (for_range 0 ncomp (rha4_jk_step2 eri sdm tao nao L) st0) q = mem st0 q.
Proof.
  intros (Hi & Hj & Hk & Hl) Hconf E0 q Hq.
  apply (component_loop_frame (rha4_jk_step2 eri sdm tao nao L)
           CVHFtimerev_adbak_blockT
           (fun st => fst (rha4_jk_inner eri sdm L
                             (NPzset0 (tmp st) (dj L * dk L)) (eri_p st)))
           tao (jstart L) (jend L) (kstart L) (kend L) nao ncomp st0);
    try assumption; try lia; try (intros; reflexivity).
Qed.

Lemma rha4_li_loop1_frame (eri sdm : buf C) tao nao ncomp (L : locijkl)
    (st0 : locals C) :
  quad_in_range L nao -> adbak_confined CVHFtimerev_adbak_j ->
  vjk_p st0 = 0 ->
  forall q, ~ (0 <= q < ncomp * (nao * nao)) ->
    mem (for_range 0 ncomp (rha4_li_step1 eri sdm tao nao L) st0) q = mem st0 q.
Proof.
  intros (Hi & Hj & Hk & Hl) Hconf E0 q Hq.
  apply (component_loop_frame (rha4_li_step1 eri sdm tao nao L)
           CVHFtimerev_adbak_j (rha4_li_svk1 eri sdm L)
           tao (kstart L) (kend L) (istart L) (iend L) nao ncomp st0);
    try assumption; try lia; try (intros; reflexivity).
Qed.

Lemma rha4_li_loop2_frame (eri sdm : buf C) tao nao ncomp (L : locijkl)
    (st0 : locals C) :
  quad_in_range L nao -> adbak_confined CVHFtimerev_adbak_block ->
  vjk_p st0 = 0 ->
  forall q, ~ (0 <= q < ncomp * (nao * nao)) ->
    mem (for_range 0 ncomp (rha4_li_step2 eri sdm tao nao L) st0) q = mem st0 q.
Proof.
  intros (Hi & Hj & Hk & Hl) Hconf E0 q Hq.
  apply (component_loop_frame (rha4_li_step2 eri sdm tao nao L)
           CVHFtimerev_adbak_block
           (fun st => fst (rha4_li_inner eri sdm L
                             (NPzset0 (tmp st) (di L * dl L)) (eri_p st)))
           tao (lstart L) (lend L) (istart L) (iend L) nao ncomp st0);
    try assumption; try lia; try (intros; reflexivity).
Qed.

(** For back-distributions that stay inside the matrix they are handed, the
    two [CVHFrha4] K-build kernels write nothing outside the [ncomp] output
    matrices: there the output is what the delegated [CVHFrs1] kernel
    left. *)
Theorem rha4_kbuild_frame eri dm vk nao ncomp shls ao_loc tao
    (dm_cond : Z -> real) nbas dm_atleast :
  shls 0 >= shls 1 -> shls 2 >= shls 3 ->
  quad_in_range (LOCIJKL shls ao_loc) nao ->
  (adbak_confined CVHFtimerev_adbak_jT ->
   adbak_confined CVHFtimerev_adbak_iT ->
   adbak_confined CVHFtimerev_adbak_blockT ->
   exists v,
     CVHFrha4_jk_s1il eri dm vk nao ncomp shls ao_loc tao
       dm_cond nbas dm_atleast = Done v /\
     forall q, ~ (0 <= q < ncomp * (nao * nao)) ->
       v q = CVHFrs1_jk_s1il eri dm vk nao ncomp shls ao_loc tao
               dm_cond nbas dm_atleast q)
  /\
  (adbak_confined CVHFtimerev_adbak_i ->
   adbak_confined CVHFtimerev_adbak_j ->
   adbak_confined CVHFtimerev_adbak_block ->
   exists v,
     CVHFrha4_li_s1kj eri dm vk nao ncomp shls ao_loc tao
       dm_cond nbas dm_atleast = Done v /\
     forall q, ~ (0 <= q < ncomp * (nao * nao)) ->
       v q = CVHFrs1_li_s1kj eri dm vk nao ncomp shls ao_loc tao
               dm_cond nbas dm_atleast q).
Proof.
  intros H01 H23 Hr. split.
  - intros HjT HiT HbT.
    destruct (rha2kl_jk_s1il_frame eri dm vk nao ncomp shls ao_loc tao
                dm_cond nbas dm_atleast H23 Hr HjT) as (vk1 & E1 & F1).
    rewrite (rha4_jk_s1il_unfold _ _ _ _ _ _ _ _ _ _ _ vk1 H01 H23 E1).
    destruct (shls 0 =? shls 1).
    { exists vk1. split; [reflexivity | exact F1]. }
    cbv zeta. destruct (shls 2 =? shls 3).
    + eexists. split; [reflexivity|]. intros q Hq.
      rewrite rha4_jk_loop1_frame by (assumption || reflexivity).
      apply F1. exact Hq.
    + eexists. split; [reflexivity|]. intros q Hq.
      rewrite rha4_jk_loop2_frame by (assumption || reflexivity).
      cbn [rha4_second mem].
      rewrite rha4_jk_loop1_frame by (assumption || reflexivity).
      apply F1. exact Hq.
  - intros Hi Hj Hb.
    destruct (rha2kl_li_s1kj_frame eri dm vk nao ncomp shls ao_loc tao
                dm_cond nbas dm_atleast H23 Hr Hi) as (vk1 & E1 & F1).
    rewrite (rha4_li_s1kj_unfold _ _ _ _ _ _ _ _ _ _ _ vk1 H01 H23 E1).
    destruct (shls 0 =? shls 1).
    { exists vk1. split; [reflexivity | exact F1]. }
    cbv zeta. destruct (shls 2 =? shls 3).
    + eexists. split; [reflexivity|]. intros q Hq.
      rewrite rha4_li_loop1_frame by (assumption || reflexivity).
      apply F1. exact Hq.
    + eexists. split; [reflexivity|]. intros q Hq.
      rewrite rha4_li_loop2_frame by (assumption || reflexivity).
      cbn [rha4_second mem].
      rewrite rha4_li_loop1_frame by (assumption || reflexivity).
      apply F1. exact Hq.
Qed.

End KBuildFrame4.

(** ** The K-build kernels: which integrals a component reads *)

Section KBuildBlocks.
Context {C : Type} `{Scalar C} `{TimeRev C}.

(** The loops that read the second copy of the integrals through [p0213]. *)
Lemma li_s1kj_loop_block (eri eri' sdm : buf C) (tao : ibuf) (nao ncomp : Z)
    (L : locijkl) (ic : Z) (st0 st0' : locals C) :
  quad_in_range L nao -> loc_sizes L ->
  adbak_confined CVHFtimerev_adbak_i ->
  0 <= ic < ncomp ->
  vjk_p st0 = 0 -> vjk_p st0' = 0 ->
  p0213_p st0 = di L * dk L * (dj L * dl L) * ncomp ->
  p0213_p st0' = di L * dk L * (dj L * dl L) * ncomp ->
  (forall e, (ncomp + ic) * (di L * dk L * (dj L * dl L)) <= e
             < (ncomp + ic + 1) * (di L * dk L * (dj L * dl L)) ->
             eri e = eri' e) ->
  (forall q, ic * (nao * nao) <= q < (ic + 1) * (nao * nao) ->
     mem st0 q = mem st0' q) ->
  forall q, ic * (nao * nao) <= q < (ic + 1) * (nao * nao) ->
    mem (for_range 0 ncomp (li_s1kj_step eri sdm tao nao L) st0) q
    = mem (for_range 0 ncomp (li_s1kj_step eri' sdm tao nao L) st0') q.
Proof.
  intros (Hi & Hj & Hk & Hl) (Edi & Edj & Edk & Edl) Hconf Hic
         Ev Ev' Ep Ep' E Hmem.
  set (B := di L * dk L * (dj L * dl L)) in *.
  apply (component_loop_block
           (li_s1kj_step eri sdm tao nao L) (li_s1kj_step eri' sdm tao nao L)
           CVHFtimerev_adbak_i (li_svk eri sdm L) (li_svk eri' sdm L)
           tao (lstart L) (lend L) (jstart L) (jend L) nao ncomp ic
           (fun k a b => p0213_p a = B * ncomp + k * B /\
                         p0213_p b = B * ncomp + k * B));
    try assumption; try lia; try (intros; reflexivity).
  - intros k a b Hk' [Ea Eb]. unfold li_s1kj_step. cbn [p0213_p].
    fold B. lia.
  - intros a b r [Ea Eb] Hr. unfold li_svk. rewrite Ea, Eb.
    rewrite (Z.mul_comm (dl L) (dj L)).
    apply zgemv_t_zeroed_ext.
    + intros e He. apply E. fold B in He. lia.
    + rewrite <- Edl, <- Edj in Hr. nia.
Qed.

Lemma rha4_jk_loop1_block (eri eri' sdm : buf C) (tao : ibuf) (nao ncomp : Z)
    (L : locijkl) (ic : Z) (st0 st0' : locals C) :
  quad_in_range L nao -> loc_sizes L ->
  adbak_confined CVHFtimerev_adbak_iT ->
  0 <= ic < ncomp ->
  vjk_p st0 = 0 -> vjk_p st0' = 0 ->
  p0213_p st0 = di L * dk L * (dj L * dl L) * ncomp ->
  p0213_p st0' = di L * dk L * (dj L * dl L) * ncomp ->
  (forall e, (ncomp + ic) * (di L * dk L * (dj L * dl L)) <= e
             < (ncomp + ic + 1) * (di L * dk L * (dj L * dl L)) ->
             eri e = eri' e) ->
  (forall q, ic * (nao * nao) <= q < (ic + 1) * (nao * nao) ->
     mem st0 q = mem st0' q) ->
  forall q, ic * (nao * nao) <= q < (ic + 1) * (nao * nao) ->
    mem (for_range 0 ncomp (rha4_jk_step1 eri sdm tao nao L) st0) q
    = mem (for_range 0 ncomp (rha4_jk_step1 eri' sdm tao nao L) st0') q.
Proof.
  intros (Hi & Hj & Hk & Hl) (Edi & Edj & Edk & Edl) Hconf Hic
         Ev Ev' Ep Ep' E Hmem.
  set (B := di L * dk L * (dj L * dl L)) in *.
  apply (component_loop_block
           (rha4_jk_step1 eri sdm tao nao L) (rha4_jk_step1 eri' sdm tao nao L)
           CVHFtimerev_adbak_iT (rha4_jk_svk1 eri sdm L) (rha4_jk_svk1 eri' sdm L)
           tao (jstart L) (jend L) (lstart L) (lend L) nao ncomp ic
           (fun k a b => p0213_p a = B * ncomp + k * B /\
                         p0213_p b = B * ncomp + k * B));
    try assumption; try lia; try (intros; reflexivity).
  - intros k a b Hk' [Ea Eb]. unfold rha4_jk_step1. cbn [p0213_p].
    fold B. lia.
  - intros a b r [Ea Eb] Hr. unfold rha4_jk_svk1. rewrite Ea, Eb.
    apply zgemv_t_zeroed_ext.
    + intros e He. apply E. fold B in He. lia.
    + rewrite <- Edl, <- Edj in Hr. exact Hr.
Qed.

Lemma rha4_li_loop1_block (eri eri' sdm : buf C) (tao : ibuf) (nao ncomp : Z)
    (L : locijkl) (ic : Z) (st0 st0' : locals C) :
  quad_in_range L nao -> loc_sizes L ->
  adbak_confined CVHFtimerev_adbak_j ->
  0 <= ic < ncomp ->
  vjk_p st0 = 0 -> vjk_p st0' = 0 ->
  p0213_p st0 = di L * dk L * (dj L * dl L) * ncomp ->
  p0213_p st0' = di L * dk L * (dj L * dl L) * ncomp ->
  (forall e, (ncomp + ic) * (di L * dk L * (dj L * dl L)) <= e
             < (ncomp + ic + 1) * (di L * dk L * (dj L * dl L)) ->
             eri e = eri' e) ->
  (forall q, ic * (nao * nao) <= q < (ic + 1) * (nao * nao) ->
     mem st0 q = mem st0' q) ->
  forall q, ic * (nao * nao) <= q < (ic + 1) * (nao * nao) ->
    mem (for_range 0 ncomp (rha4_li_step1 eri sdm tao nao L) st0) q
    = mem (for_range 0 ncomp (rha4_li_step1 eri' sdm tao nao L) st0') q.
Proof.
  intros (Hi & Hj & Hk & Hl) (Edi & Edj & Edk & Edl) Hconf Hic
         Ev Ev' Ep Ep' E Hmem.
  set (B := di L * dk L * (dj L * dl L)) in *.
  apply (component_loop_block
           (rha4_li_step1 eri sdm tao nao L) (rha4_li_step1 eri' sdm tao nao L)
           CVHFtimerev_adbak_j (rha4_li_svk1 eri sdm L) (rha4_li_svk1 eri' sdm L)
           tao (kstart L) (kend L) (istart L) (iend L) nao ncomp ic
           (fun k a b => p0213_p a = B * ncomp + k * B /\
                         p0213_p b = B * ncomp + k * B));
    try assumption; try lia; try (intros; reflexivity).
  - intros k a b Hk' [Ea Eb]. unfold rha4_li_step1. cbn [p0213_p].
    fold B. lia.
  - intros a b r [Ea Eb] Hr. unfold rha4_li_svk1. rewrite Ea, Eb.
    apply zgemv_n_zeroed_ext.
    + intros e He. apply E. fold B in He. lia.
    + rewrite <- Edk, <- Edi in Hr. nia.
Qed.

End KBuildBlocks.

Section KBuildSecondLoop.
Context {C : Type} `{Scalar C} `{TimeRev C}.

Lemma rha4_jk_inner_snd (eri sdm svk : buf C) (L : locijkl) (ep : Z) :
  0 <= dl L ->
  snd (rha4_jk_inner eri sdm L svk ep) = ep + dl L * (di L * dk L * dj L).
Proof.
  intros Hl. unfold rha4_jk_inner.
  apply (for_range_inv
           (fun l (se : buf C * Z) => snd se = ep + l * (di L * dk L * dj L)));
    [exact Hl | simpl; lia |].
  intros l [s e] _ E. simpl in E. simpl. lia.
Qed.

Lemma rha4_li_inner_snd (eri sdm svk : buf C) (L : locijkl) (ep : Z) :
  0 <= dl L ->
  snd (rha4_li_inner eri sdm L svk ep) = ep + dl L * (di L * dk L * dj L).
Proof.
  intros Hl. unfold rha4_li_inner.
  apply (for_range_inv
           (fun l (se : buf C * Z) => snd se = ep + l * (di L * dk L * dj L)));
    [exact Hl | simpl; lia |].
  intros l [s e] _ E. simpl in E. simpl. lia.
Qed.

(** Every entry the [l]-th [zgemv_] of an inner loop reads lies in the
    [dl] slabs of [di*dk*dj] integrals that start at [ep]. *)
Lemma slab_index (di djk dijk dl ep l i r : Z) :
  dijk = di * djk ->
  0 <= l < dl -> 0 <= i < di -> 0 <= r < djk ->
  ep <= ep + l * dijk + (i + r * di) < ep + dl * dijk.
Proof.
  intros -> Hl Hi Hr.
  assert (0 <= i + r * di < di * djk) by nia.
  assert (0 <= l * (di * djk)) by nia.
  assert ((l + 1) * (di * djk) <= dl * (di * djk)) by nia.
  lia.
Qed.

Lemma rha4_jk_inner_block (eri eri' sdm s s' : buf C) (L : locijkl) (ep : Z) :
  0 <= dl L ->
  (forall e, ep <= e < ep + dl L * (di L * dk L * dj L) -> eri e = eri' e) ->
  (forall r, 0 <= r < dj L * dk L -> s r = s' r) ->
  forall r, 0 <= r < dj L * dk L ->
    fst (rha4_jk_inner eri sdm L s ep) r = fst (rha4_jk_inner eri' sdm L s' ep) r.
Proof.
  intros Hl E Hs. unfold rha4_jk_inner.
  apply (for_range_rel
           (fun l (a b : buf C * Z) =>
              snd a = ep + l * (di L * dk L * dj L) /\ snd b = snd a /\
              forall r, 0 <= r < dj L * dk L -> fst a r = fst b r));
    [exact Hl | simpl; repeat split; try lia; exact Hs |].
  intros l [a ea] [b eb] Hl' (Ea & Eb & Hab). simpl in Ea, Eb, Hab.
  subst eb. subst ea. simpl. split; [lia|]. split; [reflexivity|].
  intros r Hr. unfold zgemv_.
  destruct (Z.leb_spec 0 r), (Z.ltb_spec r (dj L * dk L)); simpl; try lia.
  rewrite (Hab r Hr). f_equal. f_equal. apply zsum_ext.
  intros i Hi. unfold offset. rewrite E; [reflexivity|].
  apply slab_index with (djk := dj L * dk L);
    solve [assumption | lia | ring].
Qed.

Lemma rha4_li_inner_block (eri eri' sdm s s' : buf C) (L : locijkl) (ep : Z) :
  0 <= dl L ->
  (forall e, ep <= e < ep + dl L * (di L * dk L * dj L) -> eri e = eri' e) ->
  (forall r, 0 <= r < di L * dl L -> s r = s' r) ->
  forall r, 0 <= r < di L * dl L ->
    fst (rha4_li_inner eri sdm L s ep) r = fst (rha4_li_inner eri' sdm L s' ep) r.
Proof.
  intros Hl E Hs. unfold rha4_li_inner.
  apply (for_range_rel
           (fun l (a b : buf C * Z) =>
              snd a = ep + l * (di L * dk L * dj L) /\ snd b = snd a /\
              forall r, 0 <= r < di L * dl L -> fst a r = fst b r));
    [exact Hl | simpl; repeat split; try lia; exact Hs |].
  intros l [a ea] [b eb] Hl' (Ea & Eb & Hab). simpl in Ea, Eb, Hab.
  subst eb. subst ea. simpl. split; [lia|]. split; [reflexivity|].
  intros r Hr. unfold at_offset, zgemv_, offset.
  destruct (Z.leb_spec 0 (r - l * di L)), (Z.ltb_spec (r - l * di L) (di L));
    simpl.
  - replace (l * di L + (r - l * di L)) with r by lia.
    rewrite (Hab r Hr). f_equal. f_equal. apply zsum_ext.
    intros j Hj. rewrite E; [reflexivity|].
    replace (ep + l * (di L * dk L * dj L) + (r - l * di L + j * di L))
      with (ep + l * (di L * dk L * dj L) + ((r - l * di L) + j * di L)) by lia.
    apply slab_index with (djk := dj L * dk L);
      solve [assumption | lia | ring].
  - replace (l * di L + (r - l * di L)) with r by lia. apply Hab. exact Hr.
  - replace (l * di L + (r - l * di L)) with r by lia. apply Hab. exact Hr.
  - replace (l * di L + (r - l * di L)) with r by lia. apply Hab. exact Hr.
Qed.

(** The second loops read the first copy of the integrals through [eri]. *)
Lemma rha4_jk_loop2_block (eri eri' sdm : buf C) (tao : ibuf) (nao ncomp : Z)
    (L : locijkl) (ic : Z) (st0 st0' : locals C) :
  quad_in_range L nao -> loc_sizes L ->
  adbak_confined CVHFtimerev_adbak_blockT ->
  0 <= ic < ncomp ->
  vjk_p st0 = 0 -> vjk_p st0' = 0 -> eri_p st0 = 0 -> eri_p st0' = 0 ->
  (forall e, ic * (dl L * (di L * dk L * dj L)) <= e
             < (ic + 1) * (dl L * (di L * dk L * dj L)) ->
             eri e = eri' e) ->
  (forall q, ic * (nao * nao) <= q < (ic + 1) * (nao * nao) ->
     mem st0 q = mem st0' q) ->
  forall q, ic * (nao * nao) <= q < (ic + 1) * (nao * nao) ->
    mem (for_range 0 ncomp (rha4_jk_step2 eri sdm tao nao L) st0) q
    = mem (for_range 0 ncomp (rha4_jk_step2 eri' sdm tao nao L) st0') q.
Proof.
  intros (Hi & Hj & Hk & Hl) (Edi & Edj & Edk & Edl) Hconf Hic
         Ev Ev' Ee Ee' E Hmem.
  assert (Hdl : 0 <= dl L) by lia.
  set (B := dl L * (di L * dk L * dj L)) in *.
  apply (component_loop_block
           (rha4_jk_step2 eri sdm tao nao L) (rha4_jk_step2 eri' sdm tao nao L)
           CVHFtimerev_adbak_blockT
           (fun st => fst (rha4_jk_inner eri sdm L
                             (NPzset0 (tmp st) (dj L * dk L)) (eri_p st)))
           (fun st => fst (rha4_jk_inner eri' sdm L
                             (NPzset0 (tmp st) (dj L * dk L)) (eri_p st)))
           tao (jstart L) (jend L) (kstart L) (kend L) nao ncomp ic
           (fun k a b => eri_p a = k * B /\ eri_p b = k * B));
    try assumption; try lia; try (intros; reflexivity).
  - intros k a b Hk' [Ea Eb]. unfold rha4_jk_step2. cbn [eri_p].
    fold (rha4_jk_inner eri sdm L (NPzset0 (tmp a) (dj L * dk L)) (eri_p a)).
    fold (rha4_jk_inner eri' sdm L (NPzset0 (tmp b) (dj L * dk L)) (eri_p b)).
    rewrite !rha4_jk_inner_snd by exact Hdl. fold B. lia.
  - intros a b r [Ea Eb] Hr. rewrite Ea, Eb.
    rewrite <- Edj, <- Edk in Hr.
    apply rha4_jk_inner_block; try assumption.
    + intros e He. apply E. fold B in He. lia.
    + intros r' Hr'. unfold NPzset0.
      destruct (Z.leb_spec 0 r'), (Z.ltb_spec r' (dj L * dk L)); simpl;
        try lia. reflexivity.
Qed.

Lemma rha4_li_loop2_block (eri eri' sdm : buf C) (tao : ibuf) (nao ncomp : Z)
    (L : locijkl) (ic : Z) (st0 st0' : locals C) :
  quad_in_range L nao -> loc_sizes L ->
  adbak_confined CVHFtimerev_adbak_block ->
  0 <= ic < ncomp ->
  vjk_p st0 = 0 -> vjk_p st0' = 0 -> eri_p st0 = 0 -> eri_p st0' = 0 ->
  (forall e, ic * (dl L * (di L * dk L * dj L)) <= e
             < (ic + 1) * (dl L * (di L * dk L * dj L)) ->
             eri e = eri' e) ->
  (forall q, ic * (nao * nao) <= q < (ic + 1) * (nao * nao) ->
     mem st0 q = mem st0' q) ->
  forall q, ic * (nao * nao) <= q < (ic + 1) * (nao * nao) ->
    mem (for_range 0 ncomp (rha4_li_step2 eri sdm tao nao L) st0) q
    = mem (for_range 0 ncomp (rha4_li_step2 eri' sdm tao nao L) st0') q.
Proof.
  intros (Hi & Hj & Hk & Hl) (Edi & Edj & Edk & Edl) Hconf Hic
         Ev Ev' Ee Ee' E Hmem.
  assert (Hdl : 0 <= dl L) by lia.
  set (B := dl L * (di L * dk L * dj L)) in *.
  apply (component_loop_block
           (rha4_li_step2 eri sdm tao nao L) (rha4_li_step2 eri' sdm tao nao L)
           CVHFtimerev_adbak_block
           (fun st => fst (rha4_li_inner eri sdm L
                             (NPzset0 (tmp st) (di L * dl L)) (eri_p st)))
           (fun st => fst (rha4_li_inner eri' sdm L
                             (NPzset0 (tmp st) (di L * dl L)) (eri_p st)))
           tao (lstart L) (lend L) (istart L) (iend L) nao ncomp ic
           (fun k a b => eri_p a = k * B /\ eri_p b = k * B));
    try assumption; try lia; try (intros; reflexivity).
  - intros k a b Hk' [Ea Eb]. unfold rha4_li_step2. cbn [eri_p].
    fold (rha4_li_inner eri sdm L (NPzset0 (tmp a) (di L * dl L)) (eri_p a)).
    fold (rha4_li_inner eri' sdm L (NPzset0 (tmp b) (di L * dl L)) (eri_p b)).
    rewrite !rha4_li_inner_snd by exact Hdl. fold B. lia.
  - intros a b r [Ea Eb] Hr. rewrite Ea, Eb.
    rewrite <- Edl, <- Edi in Hr.
    apply rha4_li_inner_block; try assumption; try lia.
    + intros e He. apply E. fold B in He. lia.
    + intros r' Hr'. unfold NPzset0.
      destruct (Z.leb_spec 0 r'), (Z.ltb_spec r' (di L * dl L)); simpl;
        try lia. reflexivity.
Qed.

End KBuildSecondLoop.

Section KBuildBlockClaims.
Context {C real : Type} `{Scalar C} `{RsKernels C real} `{TimeRev C}.

Lemma quad_ik_in_range (L : locijkl) (nao : Z) :
  quad_in_range L nao -> ik_in_range L nao.
Proof. intros (Hi & Hj & Hk & Hl). unfold ik_in_range. lia. Qed.

Lemma rha2kl_jk_s1il_block eri eri' dm vk nao ncomp shls ao_loc tao
    (dm_cond : Z -> real) nbas dm_atleast (ic : Z) :
  let L := LOCIJKL shls ao_loc in
  let B := di L * dj L * dk L * dl L in
  let N := nao * nao in
  shls 2 >= shls 3 -> 0 <= ic < ncomp ->
  quad_in_range L nao ->
  adbak_confined CVHFtimerev_adbak_jT ->
  (forall e, (ncomp + ic) * B <= e < (ncomp + ic + 1) * B -> eri e = eri' e) ->
  (forall q, ic * N <= q < (ic + 1) * N ->
     CVHFrs1_jk_s1il eri dm vk nao ncomp shls ao_loc tao dm_cond nbas dm_atleast q
     = CVHFrs1_jk_s1il eri' dm vk nao ncomp shls ao_loc tao
         dm_cond nbas dm_atleast q) ->
  exists v v',
    CVHFrha2kl_jk_s1il eri dm vk nao ncomp shls ao_loc tao
      dm_cond nbas dm_atleast = Done v /\
    CVHFrha2kl_jk_s1il eri' dm vk nao ncomp shls ao_loc tao
      dm_cond nbas dm_atleast = Done v' /\
    forall q, ic * N <= q < (ic + 1) * N -> v q = v' q.
Proof.
  intros L B N Hge Hic Hr Hconf E Hrs.
  destruct (Z.eq_dec (shls 2) (shls 3)) as [Eq|Ne].
  - unfold CVHFrha2kl_jk_s1il. rewrite geb_true by lia. simpl assert.
    replace (shls 2 =? shls 3) with true by (symmetry; apply Z.eqb_eq; exact Eq).
    eexists. eexists. split; [reflexivity|]. split; [reflexivity|]. exact Hrs.
  - rewrite !rha2kl_jk_s1il_offdiag by lia. cbv zeta. fold L.
    eexists. eexists. split; [reflexivity|]. split; [reflexivity|].
    apply jk_s1il_loop_block; try assumption; try reflexivity.
    + apply quad_ik_in_range. exact Hr.
    + intros e He. apply E. unfold B.
      replace (di L * dj L * dk L * dl L) with (di L * dk L * (dj L * dl L))
        by ring.
      exact He.
Qed.

Lemma rha2kl_li_s1kj_block eri eri' dm vk nao ncomp shls ao_loc tao
    (dm_cond : Z -> real) nbas dm_atleast (ic : Z) :
  let L := LOCIJKL shls ao_loc in
  let B := di L * dj L * dk L * dl L in
  let N := nao * nao in
  shls 2 >= shls 3 -> 0 <= ic < ncomp ->
  quad_in_range L nao ->
  adbak_confined CVHFtimerev_adbak_i ->
  (forall e, (ncomp + ic) * B <= e < (ncomp + ic + 1) * B -> eri e = eri' e) ->
  (forall q, ic * N <= q < (ic + 1) * N ->
     CVHFrs1_li_s1kj eri dm vk nao ncomp shls ao_loc tao dm_cond nbas dm_atleast q
     = CVHFrs1_li_s1kj eri' dm vk nao ncomp shls ao_loc tao
         dm_cond nbas dm_atleast q) ->
  exists v v',
    CVHFrha2kl_li_s1kj eri dm vk nao ncomp shls ao_loc tao
      dm_cond nbas dm_atleast = Done v /\
    CVHFrha2kl_li_s1kj eri' dm vk nao ncomp shls ao_loc tao
      dm_cond nbas dm_atleast = Done v' /\
    forall q, ic * N <= q < (ic + 1) * N -> v q = v' q.
Proof.
  intros L B N Hge Hic Hr Hconf E Hrs.
  unfold CVHFrha2kl_li_s1kj. rewrite !geb_true by lia. simpl assert.
  destruct (shls 2 =? shls 3).
  - eexists. eexists. split; [reflexivity|]. split; [reflexivity|]. exact Hrs.
  - cbv zeta. fold L.
    eexists. eexists. split; [reflexivity|]. split; [reflexivity|].
    apply li_s1kj_loop_block; try assumption; try reflexivity.
    + repeat split.
    + intros e He. apply E. unfold B.
      replace (di L * dj L * dk L * dl L) with (di L * dk L * (dj L * dl L))
        by ring.
      exact He.
Qed.

(** In [CVHFrha2kl_li_s1kj], for [shls[2] >= shls[3]] and the four orbital
    ranges inside [0..nao] ([quad_in_range]), component [ic] reads the
    [ic]-th block of the second copy of the integrals,
    [eri[(ncomp+ic)*B .. (ncomp+ic+1)*B)] with [B = di*dj*dk*dl]: for a
    back-distribution that stays inside the matrix it is handed
    ([adbak_confined]), and given what the delegated [CVHFrs1_li_s1kj] left
    in the [ic]-th output matrix, that matrix depends on no other
    integral. *)
Theorem rha2kl_li_s1kj_component_block eri eri' dm vk nao ncomp shls ao_loc tao
    (dm_cond : Z -> real) nbas dm_atleast (ic : Z) :
  let L := LOCIJKL shls ao_loc in
  let B := di L * dj L * dk L * dl L in
  let N := nao * nao in
  shls 2 >= shls 3 -> 0 <= ic < ncomp ->
  quad_in_range L nao ->
  adbak_confined CVHFtimerev_adbak_i ->
  (forall e, (ncomp + ic) * B <= e < (ncomp + ic + 1) * B -> eri e = eri' e) ->
  (forall q, ic * N <= q < (ic + 1) * N ->
     CVHFrs1_li_s1kj eri dm vk nao ncomp shls ao_loc tao dm_cond nbas dm_atleast q
     = CVHFrs1_li_s1kj eri' dm vk nao ncomp shls ao_loc tao
         dm_cond nbas dm_atleast q) ->
  exists v v',
    CVHFrha2kl_li_s1kj eri dm vk nao ncomp shls ao_loc tao
      dm_cond nbas dm_atleast = Done v /\
    CVHFrha2kl_li_s1kj eri' dm vk nao ncomp shls ao_loc tao
      dm_cond nbas dm_atleast = Done v' /\
    forall q, ic * N <= q < (ic + 1) * N -> v q = v' q.
Proof.
  intros L B N. apply rha2kl_li_s1kj_block.
Qed.

(** In [CVHFrha4_jk_s1il], for a canonically ordered quadruplet
    ([shls[0] >= shls[1]], [shls[2] >= shls[3]]) and the four orbital ranges
    inside [0..nao] ([quad_in_range]), component [ic] reads two blocks of
    integrals of [B = di*dj*dk*dl] entries each: the [ic]-th of the first
    copy, [eri[ic*B .. (ic+1)*B)], in its second loop, and the [ic]-th of the
    second copy, [eri[(ncomp+ic)*B .. (ncomp+ic+1)*B)], in its first loop and
    in [CVHFrha2kl_jk_s1il].  For back-distributions that stay inside the
    matrix they are handed ([adbak_confined]), and given what the delegated
    [CVHFrs1_jk_s1il] left in the [ic]-th output matrix, that matrix depends
    on no other integral. *)
Theorem rha4_jk_s1il_component_blocks eri eri' dm vk nao ncomp shls ao_loc tao
    (dm_cond : Z -> real) nbas dm_atleast (ic : Z) :
  let L := LOCIJKL shls ao_loc in
  let B := di L * dj L * dk L * dl L in
  let N := nao * nao in
  shls 0 >= shls 1 -> shls 2 >= shls 3 -> 0 <= ic < ncomp ->
  quad_in_range L nao ->
  adbak_confined CVHFtimerev_adbak_jT ->
  adbak_confined CVHFtimerev_adbak_iT ->
  adbak_confined CVHFtimerev_adbak_blockT ->
  (forall e, ic * B <= e < (ic + 1) * B -> eri e = eri' e) ->
  (forall e, (ncomp + ic) * B <= e < (ncomp + ic + 1) * B -> eri e = eri' e) ->
  (forall q, ic * N <= q < (ic + 1) * N ->
     CVHFrs1_jk_s1il eri dm vk nao ncomp shls ao_loc tao dm_cond nbas dm_atleast q
     = CVHFrs1_jk_s1il eri' dm vk nao ncomp shls ao_loc tao
         dm_cond nbas dm_atleast q) ->
  exists v v',
    CVHFrha4_jk_s1il eri dm vk nao ncomp shls ao_loc tao
      dm_cond nbas dm_atleast = Done v /\
    CVHFrha4_jk_s1il eri' dm vk nao ncomp shls ao_loc tao
      dm_cond nbas dm_atleast = Done v' /\
    forall q, ic * N <= q < (ic + 1) * N -> v q = v' q.
Proof.
  intros L B N H01 H23 Hic Hr HjT HiT HbT E1 E2 Hrs.
  destruct (rha2kl_jk_s1il_block eri eri' dm vk nao ncomp shls ao_loc tao
              dm_cond nbas dm_atleast ic H23 Hic Hr HjT E2 Hrs)
    as (v1 & v1' & Ev & Ev' & A1).
  rewrite (rha4_jk_s1il_unfold _ _ _ _ _ _ _ _ _ _ _ v1 H01 H23 Ev).
  rewrite (rha4_jk_s1il_unfold _ _ _ _ _ _ _ _ _ _ _ v1' H01 H23 Ev').
  assert (Hs : loc_sizes L) by (repeat split).
  assert (EB : di L * dk L * (dj L * dl L) = B) by (unfold B; ring).
  assert (EB' : dl L * (di L * dk L * dj L) = B) by (unfold B; ring).
  destruct (shls 0 =? shls 1).
  { exists v1, v1'. split; [reflexivity|]. split; [reflexivity | exact A1]. }
  cbv zeta. fold L.
  assert (A2 : forall sdm q, ic * N <= q < (ic + 1) * N ->
    mem (for_range 0 ncomp (rha4_jk_step1 eri sdm tao nao L)
           (jk_init v1 (di L * dk L * (dj L * dl L) * ncomp))) q
    = mem (for_range 0 ncomp (rha4_jk_step1 eri' sdm tao nao L)
             (jk_init v1' (di L * dk L * (dj L * dl L) * ncomp))) q).
  { intros sdm. apply rha4_jk_loop1_block; try assumption; try reflexivity.
    intros e He. apply E2. rewrite EB in He. exact He. }
  destruct (shls 2 =? shls 3).
  - eexists. eexists. split; [reflexivity|]. split; [reflexivity|]. apply A2.
  - eexists. eexists. split; [reflexivity|]. split; [reflexivity|].
    apply rha4_jk_loop2_block; try assumption; try reflexivity.
    + intros e He. apply E1. rewrite EB' in He. exact He.
    + apply A2.
Qed.

(** In [CVHFrha4_li_s1kj], for a canonically ordered quadruplet and the
    four orbital ranges inside [0..nao] ([quad_in_range]), component [ic]
    reads the same two blocks of integrals as in [CVHFrha4_jk_s1il]: for
    back-distributions that stay inside the matrix they are handed
    ([adbak_confined]), and given what the delegated [CVHFrs1_li_s1kj] left
    in the [ic]-th output matrix, that matrix depends on no other
    integral. *)
Theorem rha4_li_s1kj_component_blocks eri eri' dm vk nao ncomp shls ao_loc tao
    (dm_cond : Z -> real) nbas dm_atleast (ic : Z) :
  let L := LOCIJKL shls ao_loc in
  let B := di L * dj L * dk L * dl L in
  let N := nao * nao in
  shls 0 >= shls 1 -> shls 2 >= shls 3 -> 0 <= ic < ncomp ->
  quad_in_range L nao ->
  adbak_confined CVHFtimerev_adbak_i ->
  adbak_confined CVHFtimerev_adbak_j ->
  adbak_confined CVHFtimerev_adbak_block ->
  (forall e, ic * B <= e < (ic + 1) * B -> eri e = eri' e) ->
  (forall e, (ncomp + ic) * B <= e < (ncomp + ic + 1) * B -> eri e = eri' e) ->
  (forall q, ic * N <= q < (ic + 1) * N ->
     CVHFrs1_li_s1kj eri dm vk nao ncomp shls ao_loc tao dm_cond nbas dm_atleast q
     = CVHFrs1_li_s1kj eri' dm vk nao ncomp shls ao_loc tao
         dm_cond nbas dm_atleast q) ->
  exists v v',
    CVHFrha4_li_s1kj eri dm vk nao ncomp shls ao_loc tao
      dm_cond nbas dm_atleast = Done v /\
    CVHFrha4_li_s1kj eri' dm vk nao ncomp shls ao_loc tao
      dm_cond nbas dm_atleast = Done v' /\
    forall q, ic * N <= q < (ic + 1) * N -> v q = v' q.
Proof.
  intros L B N H01 H23 Hic Hr Hi Hj Hb E1 E2 Hrs.
  destruct (rha2kl_li_s1kj_block eri eri' dm vk nao ncomp shls ao_loc tao
              dm_cond nbas dm_atleast ic H23 Hic Hr Hi E2 Hrs)
    as (v1 & v1' & Ev & Ev' & A1).
  rewrite (rha4_li_s1kj_unfold _ _ _ _ _ _ _ _ _ _ _ v1 H01 H23 Ev).
  rewrite (rha4_li_s1kj_unfold _ _ _ _ _ _ _ _ _ _ _ v1' H01 H23 Ev').
  assert (Hs : loc_sizes L) by (repeat split).
  assert (EB : di L * dk L * (dj L * dl L) = B) by (unfold B; ring).
  assert (EB' : dl L * (di L * dk L * dj L) = B) by (unfold B; ring).
  destruct (shls 0 =? shls 1).
  { exists v1, v1'. split; [reflexivity|]. split; [reflexivity | exact A1]. }
  cbv zeta. fold L.
  assert (A2 : forall sdm q, ic * N <= q < (ic + 1) * N ->
    mem (for_range 0 ncomp (rha4_li_step1 eri sdm tao nao L)
           (jk_init v1 (di L * dk L * (dj L * dl L) * ncomp))) q
    = mem (for_range 0 ncomp (rha4_li_step1 eri' sdm tao nao L)
             (jk_init v1' (di L * dk L * (dj L * dl L) * ncomp))) q).
  { intros sdm. apply rha4_li_loop1_block; try assumption; try reflexivity.
    intros e He. apply E2. rewrite EB in He. exact He. }
  destruct (shls 2 =? shls 3).
  - eexists. eexists. split; [reflexivity|]. split; [reflexivity|]. apply A2.
  - eexists. eexists. split; [reflexivity|]. split; [reflexivity|].
    apply rha4_li_loop2_block; try assumption; try reflexivity.
    + intros e He. apply E1. rewrite EB' in He. exact He.
    + apply A2.
Qed.

End KBuildBlockClaims.

(** ** The further properties on concrete inputs *)

Section MoreRuns.
Import Plain.

Lemma ao_12_ok : ao_loc_ok ao_12 2 3.
Proof.
  split; [reflexivity|]. split; [reflexivity|].
  intros s Hs. assert (Hc : s = 0 \/ s = 1) by lia.
  destruct Hc as [-> | ->]; vm_compute; discriminate.
Qed.

Lemma LOCIJKL_in_range_witness :
  let L := LOCIJKL (quad 1 0 1 0) ao_12 in
  quad_in_range L 3 /\ loc_sizes L /\
  0 <= di L /\ 0 <= dj L /\ 0 <= dk L /\ 0 <= dl L.
Proof.
  apply (LOCIJKL_in_range (quad 1 0 1 0) ao_12 2 3).
  - exact ao_12_ok.
  - unfold shls_ok. vm_compute. repeat split; discriminate.
Defined.

Lemma adbak_blockT_empty_witness :
  adbak_blockT (of_list [10; 20; 30; 40]) (of_list [1; 2; 3; 4]) 2 0 2 1 1
  = of_list [10; 20; 30; 40].
Proof.
  apply (@adbak_blockT_empty Z ZScalar). right. lia.
Defined.

Lemma adbak_blockT_reads_block_witness :
  adbak_blockT (of_list [10; 20; 30; 40]) (of_list [1; 2; 3; 4; 5]) 2 0 2 0 2 3
  = adbak_blockT (of_list [10; 20; 30; 40]) (of_list [1; 2; 3; 4; 9]) 2 0 2 0 2 3.
Proof.
  apply (@adbak_blockT_reads_block Z ZScalar).
  intros r Hr. change (0 <= r < 4) in Hr.
  assert (Hc : r = 0 \/ r = 1 \/ r = 2 \/ r = 3) by lia.
  destruct Hc as [->|[->|[->| ->]]]; reflexivity.
Defined.

Lemma adbak_blockT_twice_witness :
  let a := of_list [10; 20; 30; 40; 50; 60; 70; 80; 90] in
  let blk1 := of_list [1; 2; 3; 4] in
  let blk2 := of_list [100; 200; 300; 400] in
  let once := adbak_blockT a blk1 3 0 2 0 2 in
  let twice := adbak_blockT once blk2 3 1 3 1 3 in
  (1 <= 1 < 3 -> 1 <= 1 < 3 ->
   twice (1 * 3 + 1)
   = Cadd (Cadd (a (1 * 3 + 1)) (blk1 ((1 - 0) * (2 - 0) + (1 - 0))))
          (blk2 ((1 - 1) * (3 - 1) + (1 - 1))))
  /\
  (~ (1 <= 1 < 3 /\ 1 <= 1 < 3) ->
   twice (1 * 3 + 1)
   = Cadd (a (1 * 3 + 1)) (blk1 ((1 - 0) * (2 - 0) + (1 - 0)))).
Proof.
  intros a blk1 blk2.
  apply (@adbak_blockT_twice Z ZScalar a blk1 blk2 3 0 2 0 2 1 3 1 3 1 1); lia.
Defined.

Example adbak_blockT_twice_run :
  map (adbak_blockT
         (adbak_blockT (of_list [10; 20; 30; 40; 50; 60; 70; 80; 90])
                       (of_list [1; 2; 3; 4]) 3 0 2 0 2)
         (of_list [100; 200; 300; 400]) 3 1 3 1 3)
      [0; 1; 2; 3; 4; 5; 6; 7; 8]
  = [11; 23; 30; 42; 154; 360; 70; 280; 490].
Proof. reflexivity. Qed.

Lemma rha2kl_lk_s1ij_scratch_unread_witness :
  let eri := of_list [1; 2; 3; 4] in
  let dm := of_list [1; 2; 3; 4; 5; 6; 7; 8; 9] in
  exists v v',
    @CVHFrha2kl_lk_s1ij Z Z
      (Build_Scalar Z Z.add Z.mul 0 1 (-1) (fun _ => 0)) _ _
      eri dm zeros 3 1 (quad 1 0 1 0) ao_12 tao_self no_cond 2 0 = Done v /\
    @CVHFrha2kl_lk_s1ij Z Z
      (Build_Scalar Z Z.add Z.mul 0 1 (-1) (fun i => 1000 + i)) _ _
      eri dm zeros 3 1 (quad 1 0 1 0) ao_12 tao_self no_cond 2 0 = Done v' /\
    forall q, v q = v' q.
Proof.
  intros eri dm.
  apply (@rha2kl_lk_s1ij_scratch_unread Z Z _ _ Z.add Z.mul 0 1 (-1)
           (fun _ => 0) (fun i => 1000 + i)
           eri dm zeros 3 1 (quad 1 0 1 0) ao_12 tao_self no_cond 2 0).
  vm_compute. discriminate.
Defined.

Lemma rha_no_components_witness :
  let eri := of_list [5; 7] in
  let dm := of_list [1; 2; 3; 4] in
  let shls := quad 1 0 1 0 in
  CVHFrha2kl_lk_s1ij eri dm zeros 2 0 shls ao_unit tao_self no_cond 2 0
    = Done zeros /\
  CVHFrha4_jk_s1il eri dm zeros 2 0 shls ao_unit tao_self no_cond 2 0
    = Done (CVHFrs1_jk_s1il eri dm zeros 2 0 shls ao_unit tao_self no_cond 2 0).
Proof.
  intros eri dm shls.
  destruct (@rha_no_components Z Z _ _ _ eri dm zeros 2 0 shls ao_unit
              tao_self no_cond 2 0 ltac:(lia)
              ltac:(vm_compute; discriminate) ltac:(vm_compute; discriminate))
    as (Hlk & _ & _ & Hjk & _).
  split; [|exact Hjk].
  apply Hlk. vm_compute. reflexivity.
Defined.

Lemma rha2kl_lk_s1ij_twice_witness :
  let eri1 := of_list [3; 5] in
  let eri2 := of_list [7; 11] in
  let dm := of_list [1; 2; 3; 4; 5; 6; 7; 8; 9] in
  let shls := quad 0 0 1 0 in
  let shls' := quad 0 0 2 1 in
  let L := LOCIJKL shls ao_unit in
  let L' := LOCIJKL shls' ao_unit in
  let sdm1 := CVHFtimerev_ijminus dm tao_self (lstart L) (lend L)
                                  (kstart L) (kend L) 3 in
  let sdm2 := CVHFtimerev_ijminus dm tao_self (lstart L') (lend L')
                                  (kstart L') (kend L') 3 in
  exists v1 v2,
    CVHFrha2kl_lk_s1ij eri1 dm zeros 3 2 shls ao_unit tao_self no_cond 3 0
      = Done v1 /\
    CVHFrha2kl_lk_s1ij eri2 dm v1 3 2 shls' ao_unit tao_self no_cond 3 0
      = Done v2 /\
    v2 (1 * (3 * 3) + 0 * 3 + 0)
    = Cadd (Cadd (zeros (1 * (3 * 3) + 0 * 3 + 0))
                 (lk_svj eri1 sdm1 L 1 ((0 - jstart L) * di L + (0 - istart L))))
           (lk_svj eri2 sdm2 L' 1 ((0 - jstart L') * di L' + (0 - istart L'))).
Proof.
  intros eri1 eri2 dm shls shls' L L' sdm1 sdm2.
  apply (@rha2kl_lk_s1ij_twice Z Z _ _ _ eri1 dm eri2 dm zeros 3 2 shls shls'
           ao_unit tao_self no_cond 3 0 1 0 0);
    try (vm_compute; reflexivity);
    try (unfold ij_in_range; vm_compute; repeat split; discriminate);
    try (vm_compute; split; [discriminate | reflexivity]).
Defined.

Example rha2kl_lk_s1ij_twice_run :
  read (and_then
          (CVHFrha2kl_lk_s1ij (of_list [3; 5])
             (of_list [1; 2; 3; 4; 5; 6; 7; 8; 9]) zeros 3 2
             (quad 0 0 1 0) ao_unit tao_self no_cond 3 0)
          (fun v1 =>
             CVHFrha2kl_lk_s1ij (of_list [7; 11])
               (of_list [1; 2; 3; 4; 5; 6; 7; 8; 9]) v1 3 2
               (quad 0 0 2 1) ao_unit tao_self no_cond 3 0))
       [0; 9]
  = Some [-20; -32].
Proof. reflexivity. Qed.

End MoreRuns.

Section KBuildRuns.
Import Plain.

Lemma add_back_confined : adbak_confined add_back.
Proof. exact adbak_blockT_confined. Qed.

Lemma quad_1010_in_range : quad_in_range (LOCIJKL (quad 1 0 1 0) ao_unit) 2.
Proof. unfold quad_in_range. vm_compute. repeat split; discriminate. Qed.

(** The stand-in for the [CVHFrs1] kernels on two buffers for two
    components, equal on the blocks of component [0] and different on those
    of component [1]. *)
Lemma contract_component_0 (q : Z) :
  0 * (2 * 2) <= q < (0 + 1) * (2 * 2) ->
  contract (of_list [5; 7; 1; 2]) (of_list [1; 2; 3; 4]) zeros 2 2
           (quad 1 0 1 0) ao_unit tao_self no_cond 2 0 q
  = contract (of_list [5; 9; 1; 4]) (of_list [1; 2; 3; 4]) zeros 2 2
             (quad 1 0 1 0) ao_unit tao_self no_cond 2 0 q.
Proof.
  intros Hq. assert (Hc : q = 0 \/ q = 1 \/ q = 2 \/ q = 3) by lia.
  destruct Hc as [->|[->|[->| ->]]]; reflexivity.
Qed.

Lemma first_copy_block_0 (e : Z) :
  0 * 1 <= e < (0 + 1) * 1 ->
  of_list [5; 7; 1; 2] e = of_list [5; 9; 1; 4] e.
Proof. intros He. assert (e = 0) by lia. subst e. reflexivity. Qed.

Lemma second_copy_block_0 (e : Z) :
  (2 + 0) * 1 <= e < (2 + 0 + 1) * 1 ->
  of_list [5; 7; 1; 2] e = of_list [5; 9; 1; 4] e.
Proof. intros He. assert (e = 2) by lia. subst e. reflexivity. Qed.

Lemma rha2kl_kbuild_frame_witness :
  let eri := of_list [5; 7] in
  let dm := of_list [1; 2; 3; 4] in
  let shls := quad 1 0 1 0 in
  (exists v,
     CVHFrha2kl_jk_s1il eri dm zeros 2 1 shls ao_unit tao_self no_cond 2 0
       = Done v /\
     forall q, ~ (0 <= q < 1 * (2 * 2)) ->
       v q = CVHFrs1_jk_s1il eri dm zeros 2 1 shls ao_unit tao_self
               no_cond 2 0 q)
  /\
  (exists v,
     CVHFrha2kl_li_s1kj eri dm zeros 2 1 shls ao_unit tao_self no_cond 2 0
       = Done v /\
     forall q, ~ (0 <= q < 1 * (2 * 2)) ->
       v q = CVHFrs1_li_s1kj eri dm zeros 2 1 shls ao_unit tao_self
               no_cond 2 0 q).
Proof.
  intros eri dm shls.
  apply (@rha2kl_kbuild_frame Z Z _ _ _ eri dm zeros 2 1 shls ao_unit
           tao_self no_cond 2 0).
  - vm_compute. discriminate.
  - exact quad_1010_in_range.
  - exact add_back_confined.
  - exact add_back_confined.
Defined.

Lemma rha4_kbuild_frame_witness :
  let eri := of_list [5; 7] in
  let dm := of_list [1; 2; 3; 4] in
  let shls := quad 1 0 1 0 in
  (exists v,
     CVHFrha4_jk_s1il eri dm zeros 2 1 shls ao_unit tao_self no_cond 2 0
       = Done v /\
     forall q, ~ (0 <= q < 1 * (2 * 2)) ->
       v q = CVHFrs1_jk_s1il eri dm zeros 2 1 shls ao_unit tao_self
               no_cond 2 0 q)
  /\
  (exists v,
     CVHFrha4_li_s1kj eri dm zeros 2 1 shls ao_unit tao_self no_cond 2 0
       = Done v /\
     forall q, ~ (0 <= q < 1 * (2 * 2)) ->
       v q = CVHFrs1_li_s1kj eri dm zeros 2 1 shls ao_unit tao_self
               no_cond 2 0 q).
Proof.
  intros eri dm shls.
  destruct (@rha4_kbuild_frame Z Z _ _ _ eri dm zeros 2 1 shls ao_unit
              tao_self no_cond 2 0
              ltac:(vm_compute; discriminate) ltac:(vm_compute; discriminate)
              quad_1010_in_range) as [A B].
  split; [apply A | apply B]; exact add_back_confined.
Defined.

Lemma rha2kl_li_s1kj_component_block_witness :
  let eri := of_list [5; 7; 1; 2] in
  let eri' := of_list [5; 9; 1; 4] in
  let dm := of_list [1; 2; 3; 4] in
  let shls := quad 1 0 1 0 in
  exists v v',
    CVHFrha2kl_li_s1kj eri dm zeros 2 2 shls ao_unit tao_self no_cond 2 0
      = Done v /\
    CVHFrha2kl_li_s1kj eri' dm zeros 2 2 shls ao_unit tao_self no_cond 2 0
      = Done v' /\
    forall q, 0 * (2 * 2) <= q < (0 + 1) * (2 * 2) -> v q = v' q.
Proof.
  intros eri eri' dm shls.
  apply (@rha2kl_li_s1kj_component_block Z Z _ _ _ eri eri' dm zeros 2 2 shls
           ao_unit tao_self no_cond 2 0 0).
  - vm_compute. discriminate.
  - lia.
  - exact quad_1010_in_range.
  - exact add_back_confined.
  - exact second_copy_block_0.
  - exact contract_component_0.
Defined.

Lemma rha4_jk_s1il_component_blocks_witness :
  let eri := of_list [5; 7; 1; 2] in
  let eri' := of_list [5; 9; 1; 4] in
  let dm := of_list [1; 2; 3; 4] in
  let shls := quad 1 0 1 0 in
  exists v v',
    CVHFrha4_jk_s1il eri dm zeros 2 2 shls ao_unit tao_self no_cond 2 0
      = Done v /\
    CVHFrha4_jk_s1il eri' dm zeros 2 2 shls ao_unit tao_self no_cond 2 0
      = Done v' /\
    forall q, 0 * (2 * 2) <= q < (0 + 1) * (2 * 2) -> v q = v' q.
Proof.
  intros eri eri' dm shls.
  apply (@rha4_jk_s1il_component_blocks Z Z _ _ _ eri eri' dm zeros 2 2 shls
           ao_unit tao_self no_cond 2 0 0).
  - vm_compute. discriminate.
  - vm_compute. discriminate.
  - lia.
  - exact quad_1010_in_range.
  - exact add_back_confined.
  - exact add_back_confined.
  - exact add_back_confined.
  - exact first_copy_block_0.
  - exact second_copy_block_0.
  - exact contract_component_0.
Defined.

Lemma rha4_li_s1kj_component_blocks_witness :
  let eri := of_list [5; 7; 1; 2] in
  let eri' := of_list [5; 9; 1; 4] in
  let dm := of_list [1; 2; 3; 4] in
  let shls := quad 1 0 1 0 in
  exists v v',
    CVHFrha4_li_s1kj eri dm zeros 2 2 shls ao_unit tao_self no_cond 2 0
      = Done v /\
    CVHFrha4_li_s1kj eri' dm zeros 2 2 shls ao_unit tao_self no_cond 2 0
      = Done v' /\
    forall q, 0 * (2 * 2) <= q < (0 + 1) * (2 * 2) -> v q = v' q.
Proof.
  intros eri eri' dm shls.
  apply (@rha4_li_s1kj_component_blocks Z Z _ _ _ eri eri' dm zeros 2 2 shls
           ao_unit tao_self no_cond 2 0 0).
  - vm_compute. discriminate.
  - vm_compute. discriminate.
  - lia.
  - exact quad_1010_in_range.
  - exact add_back_confined.
  - exact add_back_confined.
  - exact add_back_confined.
  - exact first_copy_block_0.
  - exact second_copy_block_0.
  - exact contract_component_0.
Defined.

(** The same two buffers in the K-build kernels: the output matrices of
    component [0] are equal, those of component [1], whose two blocks
    differ, are not. *)
Example kbuild_component_blocks_run :
  let dm := of_list [1; 2; 3; 4] in
  let li eri :=
    read (CVHFrha2kl_li_s1kj (of_list eri) dm zeros 2 2 (quad 1 0 1 0)
            ao_unit tao_self no_cond 2 0) [0; 1; 2; 3; 4; 5; 6; 7] in
  let jk4 eri :=
    read (CVHFrha4_jk_s1il (of_list eri) dm zeros 2 2 (quad 1 0 1 0)
            ao_unit tao_self no_cond 2 0) [0; 1; 2; 3; 4; 5; 6; 7] in
  let li4 eri :=
    read (CVHFrha4_li_s1kj (of_list eri) dm zeros 2 2 (quad 1 0 1 0)
            ao_unit tao_self no_cond 2 0) [0; 1; 2; 3; 4; 5; 6; 7] in
  li [5; 7; 1; 2] = Some [-4; 0; 10; 0; -8; 0; 14; 0] /\
  li [5; 9; 1; 4] = Some [-4; 0; 10; 0; -16; 0; 18; 0] /\
  jk4 [5; 7; 1; 2] = Some [4; -15; 10; -1; 8; -21; 14; -2] /\
  jk4 [5; 9; 1; 4] = Some [4; -15; 10; -1; 16; -27; 18; -4] /\
  li4 [5; 7; 1; 2] = Some [-4; -15; 10; 1; -8; -21; 14; 2] /\
  li4 [5; 9; 1; 4] = Some [-4; -15; 10; 1; -16; -27; 18; 4].
Proof. repeat split. Qed.

(** Both copies are read: a change in either block changes the output of
    [CVHFrha4_jk_s1il]. *)
Example rha4_jk_s1il_reads_both_copies :
  let dm := of_list [1; 2; 3; 4] in
  let run eri :=
    read (CVHFrha4_jk_s1il (of_list eri) dm zeros 2 1 (quad 1 0 1 0)
            ao_unit tao_self no_cond 2 0) [0; 1; 2; 3] in
  run [5; 7] = Some [28; -15; 10; -7] /\
  run [6; 7] = Some [28; -18; 12; -7] /\
  run [5; 8] = Some [32; -15; 10; -8].
Proof. repeat split. Qed.

End KBuildRuns.
